(** * Clause detection of the contract explainer: [perform_enhanced_pattern_analysis]

    A shallow embedding of [perform_enhanced_pattern_analysis] (app.py) together
    with the part of Python it runs on: [str] values as sequences of code
    points, slicing, [str.strip], and [re.finditer] under
    [re.IGNORECASE | re.DOTALL] for the regular expressions of the rule table
    (literals, [.] and [.*]). *)

From Stdlib Require Import String Ascii List ZArith NArith Bool Lia Floats Sorted.
Import ListNotations.

Set Warnings "-inexact-float".

Open Scope Z_scope.

(** ** Python values *)

(** A Python [str] is a sequence of Unicode code points. *)
Definition str := list N.

(** A source literal (all literals of the function are ASCII). *)
Definition lit (s : string) : str :=
  map N_of_ascii (list_ascii_of_string s).

Definition str_eq_dec : forall a b : str, {a = b} + {a <> b} :=
  list_eq_dec N.eq_dec.

Definition str_eqb (a b : str) : bool :=
  if str_eq_dec a b then true else false.

(** [len(x)] *)
Definition len {A} (x : list A) : Z := Z.of_nat (length x).

(** Slicing [x[i:j]] with step 1: negative bounds count from the end, and
    both bounds are clipped to [0, len(x)]. *)
Definition slice_index (n i : Z) : Z :=
  if i <? 0 then Z.max 0 (i + n) else Z.min i n.

Definition slice {A} (x : list A) (i j : Z) : list A :=
  let a := slice_index (len x) i in
  let b := slice_index (len x) j in
  firstn (Z.to_nat (b - a)) (skipn (Z.to_nat a) x).

(** [str.isspace] on one code point: the Unicode white space characters
    (bidirectional type WS, B or S, or category Zs). *)
Definition isspace (ch : N) : bool :=
  (((0x09 <=? ch) && (ch <=? 0x0D)) || ((0x1C <=? ch) && (ch <=? 0x20))
   || (ch =? 0x85) || (ch =? 0xA0) || (ch =? 0x1680)
   || ((0x2000 <=? ch) && (ch <=? 0x200A))
   || (ch =? 0x2028) || (ch =? 0x2029) || (ch =? 0x202F)
   || (ch =? 0x205F) || (ch =? 0x3000))%N.

Fixpoint lstrip (s : str) : str :=
  match s with
  | ch :: s' => if isspace ch then lstrip s' else s
  | [] => []
  end.

Definition rstrip (s : str) : str := rev (lstrip (rev s)).

(** [s.strip()] with no argument. *)
Definition strip (s : str) : str := lstrip (rstrip s).

(** ** Exceptions *)

Inductive exn : Set := re_error.

Inductive outcome (A : Type) : Type :=
| Return (a : A)
| Raise (e : exn).

Arguments Return {A} a.
Arguments Raise {A} e.

Definition bind {A B} (c : outcome A) (k : A -> outcome B) : outcome B :=
  match c with
  | Return a => k a
  | Raise e => Raise e
  end.

Notation "x <- c ;; k" := (bind c (fun x => k))
  (at level 61, c at next level, right associativity).

(** ** Regular expressions of the rule table *)

Module Re.

(** What [sre_parse] yields on the fragment: a sequence of literals, [.]
    ([ANY]) and [.*] (a greedy [MAX_REPEAT] of [ANY]). *)
Inductive item : Set :=
| LITERAL (av : N)
| ANY
| MAX_REPEAT_ANY.

Definition pattern := list item.

(** The characters with a special meaning in a pattern: . ^ $ * + ? { } [ ] \ | ( ) *)
Definition special (ch : N) : bool :=
  existsb (N.eqb ch) (lit ".^$*+?{}[]\|()").

(** Parsing, on the fragment. [None] stands for every pattern outside it
    (any other special character, a repeat of something else than [.], a
    non-ASCII character): such a pattern is not modelled. *)
Fixpoint sre_parse (p : str) : option pattern :=
  match p with
  | [] => Some []
  | ch :: p' =>
      if (ch =? 0x2E)%N then
        match p' with
        | ch' :: p'' =>
            if (ch' =? 0x2A)%N
            then option_map (cons MAX_REPEAT_ANY) (sre_parse p'')
            else option_map (cons ANY) (sre_parse p')
        | [] => Some [ANY]
        end
      else if special ch || (128 <=? ch)%N then None
      else option_map (cons (LITERAL ch)) (sre_parse p')
  end.

(** *** Matching a literal under [IGNORECASE] *)

(** The lower case of one code point, as the matcher takes it of each
    character of the text; tabulated where the image is an ASCII letter: the
    26 capitals, U+0130 (capital I with dot above) and U+212A (Kelvin sign).
    Every other cased code point lowers to a non-ASCII one and is left as it
    is here: the only use below compares the image with the set of an ASCII
    literal, and [sre_parse] admits no other literal. *)
Definition sre_lower_unicode (ch : N) : N :=
  (if (0x41 <=? ch) && (ch <=? 0x5A) then ch + 32
   else if ch =? 0x130 then 0x69
   else if ch =? 0x212A then 0x6B
   else ch)%N.

(** [iscased] on ASCII: the letters. *)
Definition iscased (av : N) : bool :=
  (((0x41 <=? av) && (av <=? 0x5A)) || ((0x61 <=? av) && (av <=? 0x7A)))%N.

(** The extra equivalents of a lower-case ASCII letter ([_casefix]):
    dotless i for i, long s for s. *)
Definition fixes (lo : N) : list N :=
  (if lo =? 0x69 then [0x131] else if lo =? 0x73 then [0x17F] else [])%N.

(** A literal [av] of the pattern against the character [ch] of the text:
    an uncased literal is compared as it is; a cased one compiles to its
    lower case [lo] together with [fixes lo], and the lower-cased [ch] is
    looked up in that set. *)
Definition literal_ignore (av ch : N) : bool :=
  if iscased av then
    let lo := sre_lower_unicode av in
    existsb (N.eqb (sre_lower_unicode ch)) (lo :: fixes lo)
  else (ch =? av)%N.

(** *** The backtracking matcher *)

(** [sre_match p s] matches [p] at the head of [s] and returns the number of
    characters of the first match in backtracking order. [.*] is greedy: it
    first takes every character up to the end of the text ([DOTALL]: [.]
    matches a newline too) and gives them back one at a time until the rest
    of the pattern matches. *)
Fixpoint sre_match (p : pattern) (s : str) {struct p} : option nat :=
  match p with
  | [] => Some 0%nat
  | LITERAL av :: p' =>
      match s with
      | ch :: s' =>
          if literal_ignore av ch then option_map S (sre_match p' s') else None
      | [] => None
      end
  | ANY :: p' =>
      match s with
      | _ :: s' => option_map S (sre_match p' s')
      | [] => None
      end
  | MAX_REPEAT_ANY :: p' =>
      (fix repeat (s : str) : option nat :=
         match s with
         | [] => sre_match p' []
         | _ :: s' =>
             match repeat s' with
             | Some n => Some (S n)
             | None => sre_match p' s
             end
         end) s
  end.

(** The loop of [MAX_REPEAT_ANY], named. *)
Fixpoint repeat_any (p' : pattern) (s : str) : option nat :=
  match s with
  | [] => sre_match p' []
  | _ :: s' =>
      match repeat_any p' s' with
      | Some n => Some (S n)
      | None => sre_match p' s
      end
  end.

(** A match object: the span [start, end) of the match in the text. *)
Record Match : Set := { start : Z; end_ : Z }.

(** [match.group()] *)
Definition group (text : str) (m : Match) : str :=
  slice text (start m) (end_ m).

(** The scanner behind [finditer], walking the text from offset [pos] with
    [s] the text from there on. [skip] counts the characters still covered
    by the previous match: the next search starts where that match ended. At
    a free offset the pattern is tried; on failure, and after an empty
    match, the scanner moves one character on (a pattern of the fragment
    whose first match at an offset is empty has no other match there). The
    end of the text is tried as well. *)
Fixpoint scan (p : pattern) (s : str) (pos : nat) (skip : nat) : list Match :=
  match skip, s with
  | S k, _ :: s' => scan p s' (S pos) k
  | S _, [] => []
  | O, _ =>
      match sre_match p s with
      | Some n =>
          {| start := Z.of_nat pos; end_ := Z.of_nat (pos + n) |}
          :: match s with
             | _ :: s' => scan p s' (S pos) (pred n)
             | [] => []
             end
      | None =>
          match s with
          | _ :: s' => scan p s' (S pos) O
          | [] => []
          end
      end
  end.

(** [re.finditer(pattern, text, re.IGNORECASE | re.DOTALL)], as the list of
    the matches the iterator yields. A pattern outside the fragment is
    answered with [re_error]; no pattern of the table is (lemma
    [patterns_ok]). *)
Definition finditer (pat : str) (text : str) : outcome (list Match) :=
  match sre_parse pat with
  | Some p => Return (scan p text 0 0)
  | None => Raise re_error
  end.

End Re.

(** ** The analysis *)

(** One entry of [detected_clauses]: the dict with the keys
    text, context, type, confidence, risk_level, position. *)
Module Clause.
Record t : Set := mk {
  text : str;
  context : str;
  type : str;
  confidence : float;
  risk_level : str;
  position : Z
}.
End Clause.

(** The dict the function returns. *)
Module Response.
Record t : Set := mk {
  detected_clauses : list Clause.t;
  analysis_method : str;
  success : bool;
  total_found : Z
}.
End Response.

(** A rule of the table: the tuple (pattern, confidence, risk). *)
Definition rule : Set := (str * float * str)%type.

(** The [patterns] dict of the function, in the order of its literal. *)
Definition patterns : list (str * list rule) :=
  [ (lit "governance",
     [ (lit "shareholder.*vote.*accordance.*with.*instructions.*provided.*by.*president", 0.95%float, lit "high");
       (lit "vote.*shares.*accordance.*president.*instructions", 0.9%float, lit "high");
       (lit "governance.*compromise.*president.*instructions", 0.85%float, lit "high");
       (lit "holder.*vote.*shares.*accordance.*instructions.*president", 0.8%float, lit "high") ]);
    (lit "drag_along",
     [ (lit "drag.along.*right.*ninety.five.*per.*cent", 0.95%float, lit "high");
       (lit "95%.*holders.*shares.*offeror.*require.*sell", 0.9%float, lit "high");
       (lit "offeror.*may.*require.*holders.*sell.*shares", 0.85%float, lit "high");
       (lit "forced.*sale.*shares.*majority.*shareholders", 0.8%float, lit "high") ]);
    (lit "tag_along",
     [ (lit "tag.along.*right.*transferor.*shareholder", 0.95%float, lit "low");
       (lit "holder.*sell.*shares.*same.*price.*terms", 0.9%float, lit "low");
       (lit "shareholder.*transfer.*shares.*holder.*right.*sell", 0.85%float, lit "low");
       (lit "protection.*minority.*shareholders.*sales", 0.8%float, lit "low") ]);
    (lit "priority_allocation",
     [ (lit "priority.*allocation.*sale.*price.*waterfall", 0.95%float, lit "medium");
       (lit "liquidation.*preference.*distribution.*proceeds", 0.9%float, lit "medium");
       (lit "sale.*proceeds.*allocated.*priority.*order", 0.85%float, lit "medium");
       (lit "distribution.*waterfall.*priority.*shareholders", 0.8%float, lit "medium") ]);
    (lit "non_compete",
     [ (lit "non.compete.*restrictions.*remain.*applicable.*avoidance.*doubts", 0.95%float, lit "medium");
       (lit "non.solicit.*provisions.*survive.*completion", 0.9%float, lit "medium");
       (lit "restrictions.*continue.*apply.*after.*sale", 0.85%float, lit "medium");
       (lit "competition.*restrictions.*remain.*effect", 0.8%float, lit "medium") ]) ].

(** [d[k]] when [k in d], on a dict written as the list of its items. *)
Fixpoint dict_get {V} (d : list (str * V)) (k : str) : option V :=
  match d with
  | [] => None
  | (k', v) :: d' => if str_eqb k k' then Some v else dict_get d' k
  end.

(** The body of [for match in matches]: one clause appended to
    [detected_clauses]. *)
Definition append_clause (text clause_type : str) (confidence : float)
    (risk : str) (detected_clauses : list Clause.t) (m : Re.Match)
    : list Clause.t :=
  let start := Z.max 0 (Re.start m - 50) in
  let end_ := Z.min (len text) (Re.end_ m + 50) in
  let context := strip (slice text start end_) in
  detected_clauses ++
  [ {| Clause.text := Re.group text m;
       Clause.context := context;
       Clause.type := clause_type;
       Clause.confidence := confidence;
       Clause.risk_level := risk;
       Clause.position := Re.start m |} ].

(** [for pattern, confidence, risk in patterns[clause_type]] *)
Fixpoint for_rules (text clause_type : str) (rules : list rule)
    (detected_clauses : list Clause.t) : outcome (list Clause.t) :=
  match rules with
  | [] => Return detected_clauses
  | (pattern, confidence, risk) :: rules' =>
      matches <- Re.finditer pattern text ;;
      for_rules text clause_type rules'
        (fold_left (append_clause text clause_type confidence risk)
                   matches detected_clauses)
  end.

(** [for clause_type in clause_types] *)
Fixpoint for_clause_types (text : str) (clause_types : list str)
    (detected_clauses : list Clause.t) : outcome (list Clause.t) :=
  match clause_types with
  | [] => Return detected_clauses
  | clause_type :: clause_types' =>
      match dict_get patterns clause_type with
      | Some rules =>
          detected_clauses' <-
            for_rules text clause_type rules detected_clauses ;;
          for_clause_types text clause_types' detected_clauses'
      | None => for_clause_types text clause_types' detected_clauses
      end
  end.

Definition perform_enhanced_pattern_analysis (text : str)
    (clause_types : list str) : outcome Response.t :=
  detected_clauses <- for_clause_types text clause_types [] ;;
  Return {| Response.detected_clauses := slice detected_clauses 0 15;
            Response.analysis_method := lit "enhanced_pattern_matching";
            Response.success := true;
            Response.total_found := len detected_clauses |}.

(** ** The result, read off the loops

    The entry built from one match, the entries of one rule, of one requested
    category and of a whole request, in the order the loops append them. The
    lemmas below show that the loops compute exactly these lists. *)

Definition clause_of (text clause_type : str) (confidence : float)
    (risk : str) (m : Re.Match) : Clause.t :=
  {| Clause.text := Re.group text m;
     Clause.context :=
       strip (slice text (Z.max 0 (Re.start m - 50))
                         (Z.min (len text) (Re.end_ m + 50)));
     Clause.type := clause_type;
     Clause.confidence := confidence;
     Clause.risk_level := risk;
     Clause.position := Re.start m |}.

(** The matches [finditer] yields for a rule ([[]] for a pattern outside the
    fragment, which the table does not contain). *)
Definition rule_matches (text : str) (r : rule) : list Re.Match :=
  match Re.sre_parse (fst (fst r)) with
  | Some p => Re.scan p text 0 0
  | None => []
  end.

Definition rule_clauses (text clause_type : str) (r : rule) : list Clause.t :=
  map (clause_of text clause_type (snd (fst r)) (snd r)) (rule_matches text r).

Definition rules_of (clause_type : str) : list rule :=
  match dict_get patterns clause_type with
  | Some rules => rules
  | None => []
  end.

Definition category_clauses (text clause_type : str) : list Clause.t :=
  flat_map (rule_clauses text clause_type) (rules_of clause_type).

Definition all_clauses (text : str) (clause_types : list str) : list Clause.t :=
  flat_map (category_clauses text) clause_types.

(** The least number of characters a pattern consumes. *)
Fixpoint min_width (p : Re.pattern) : nat :=
  match p with
  | [] => 0
  | Re.MAX_REPEAT_ANY :: p' => min_width p'
  | _ :: p' => S (min_width p')
  end.

(** A rule whose pattern lies in the fragment and cannot match the empty
    string. *)
Definition rule_ok (r : rule) : bool :=
  match Re.sre_parse (fst (fst r)) with
  | Some p => (0 <? min_width p)%nat
  | None => false
  end.

(** [m] is a match of [p] in [text]: the matcher, started at offset
    [start m], stops at [end_ m]. *)
Definition matches_at (p : Re.pattern) (text : str) (m : Re.Match) : Prop :=
  exists i n : nat,
    Re.start m = Z.of_nat i /\ Re.end_ m = Z.of_nat (i + n) /\
    (i + n <= length text)%nat /\
    Re.sre_match p (skipn i text) = Some n.

(** Two consecutive matches of one scan: the later one starts at or after
    the end of the earlier one, and strictly after its start. *)
Definition precedes (a b : Re.Match) : Prop :=
  Re.end_ a <= Re.start b /\ Re.start a < Re.start b.

(** The sentence of the governance scenario. *)
Definition governance_sentence : str :=
  lit "The shareholder shall vote shares in accordance with instructions provided by the president".

(** What the examples at the end display of an outcome: position and length
    of the text of each returned entry, and [total_found]. *)
Definition summary (o : outcome Response.t) : option (list (Z * Z) * Z) :=
  match o with
  | Return r =>
      Some (map (fun c => (Clause.position c, len (Clause.text c)))
                (Response.detected_clauses r),
            Response.total_found r)
  | Raise _ => None
  end.

(** ** The analysis over Python's store

    The same function once more, with the objects it allocates and mutates
    made explicit: the list [detected_clauses] that [append] extends in
    place, the list that the slice creates, and the caller's list
    [clause_types], which the call receives by reference. The [patterns]
    dict and the entry dicts are built by the call and never changed after,
    so they stay plain values. *)
Module Stateful.

(** The objects of the store: lists of strings and lists of entries. *)
Inductive object : Set :=
| StrList (items : list str)
| ClauseList (items : list Clause.t).

(** The store holds the objects alive; an object's address is its index, and
    a new object goes to the end. *)
Definition store : Set := list object.

Inductive raised : Set := Re_error | Type_error.

(** A computation on the store: an exception, or a value and the store it
    leaves. *)
Definition M (A : Type) : Type := store -> raised + (A * store).

Definition ret {A} (a : A) : M A := fun s => inr (a, s).

Definition seq {A B} (c : M A) (k : A -> M B) : M B :=
  fun s =>
    match c s with
    | inl e => inl e
    | inr (a, s') => k a s'
    end.

Notation "x <~ c ;; k" := (seq c (fun x => k))
  (at level 61, c at next level, right associativity).

(** A new object. *)
Definition new (o : object) : M nat :=
  fun s => inr (length s, s ++ [o]).

(** The object at an address replaced. *)
Fixpoint put (a : nat) (o : object) (s : store) : store :=
  match s, a with
  | [], _ => []
  | _ :: s', O => o :: s'
  | x :: s', S a' => x :: put a' o s'
  end.

(** Reading a list of strings, as the loop over [clause_types] does (no
    statement of the loop body touches that list, so what the iteration
    sees is what the list holds when the loop starts), and a list of
    entries. *)
Definition get_strs (a : nat) : M (list str) :=
  fun s =>
    match nth_error s a with
    | Some (StrList items) => inr (items, s)
    | _ => inl Type_error
    end.

Definition get_clauses (a : nat) : M (list Clause.t) :=
  fun s =>
    match nth_error s a with
    | Some (ClauseList items) => inr (items, s)
    | _ => inl Type_error
    end.

(** [lst.append(c)]: the list object itself grows. *)
Definition append (a : nat) (c : Clause.t) : M unit :=
  fun s =>
    match nth_error s a with
    | Some (ClauseList items) =>
        inr (tt, put a (ClauseList (items ++ [c])) s)
    | _ => inl Type_error
    end.

Definition finditer (pattern text : str) : M (list Re.Match) :=
  fun s =>
    match Re.finditer pattern text with
    | Return matches => inr (matches, s)
    | Raise _ => inl Re_error
    end.

(** The returned dict, with the address of its list. *)
Record response : Set := mk_response {
  detected_clauses : nat;
  analysis_method : str;
  success : bool;
  total_found : Z
}.

(** [for match in matches]: one entry appended per match. *)
Fixpoint for_matches (text clause_type : str) (confidence : float)
    (risk : str) (detected_clauses : nat) (matches : list Re.Match) : M unit :=
  match matches with
  | [] => ret tt
  | m :: matches' =>
      _ <~ append detected_clauses
             (clause_of text clause_type confidence risk m) ;;
      for_matches text clause_type confidence risk detected_clauses matches'
  end.

Fixpoint for_rules (text clause_type : str) (detected_clauses : nat)
    (rules : list rule) : M unit :=
  match rules with
  | [] => ret tt
  | (pattern, confidence, risk) :: rules' =>
      matches <~ finditer pattern text ;;
      _ <~ for_matches text clause_type confidence risk detected_clauses
             matches ;;
      for_rules text clause_type detected_clauses rules'
  end.

Fixpoint for_clause_types (text : str) (detected_clauses : nat)
    (clause_types : list str) : M unit :=
  match clause_types with
  | [] => ret tt
  | clause_type :: clause_types' =>
      match dict_get patterns clause_type with
      | Some rules =>
          _ <~ for_rules text clause_type detected_clauses rules ;;
          for_clause_types text detected_clauses clause_types'
      | None => for_clause_types text detected_clauses clause_types'
      end
  end.

(** The call, given the text and the address of [clause_types]. *)
Definition perform_enhanced_pattern_analysis (text : str)
    (clause_types : nat) : M response :=
  detected_clauses <~ new (ClauseList []) ;;
  requested <~ get_strs clause_types ;;
  _ <~ for_clause_types text detected_clauses requested ;;
  found <~ get_clauses detected_clauses ;;
  limited <~ new (ClauseList (slice found 0 15)) ;;
  ret {| detected_clauses := limited;
         analysis_method := lit "enhanced_pattern_matching";
         success := true;
         total_found := len found |}.

(** The response as its reader sees it in a store: the dict with the
    entries its list holds there. *)
Definition view (r : response) (s : store) : option Response.t :=
  match nth_error s (detected_clauses r) with
  | Some (ClauseList items) =>
      Some {| Response.detected_clauses := items;
              Response.analysis_method := analysis_method r;
              Response.success := success r;
              Response.total_found := total_found r |}
  | _ => None
  end.

End Stateful.

(** ** The rest of the application (app.py, security.py)

    More of Python first: exceptions of any kind, substring tests,
    [rsplit], [lower], [split]. *)

(** What the handlers below can see raised: an index out of range, the
    [re.error] of above, and whatever a collaborator outside the repository
    (Flask, PyPDF2, python-docx, requests, a codec) raises. Every handler
    catches [Exception], so the kinds are not told apart any further. *)
Inductive exception : Set := IndexError | ReError | External.

Inductive result (A : Type) : Type :=
| Value (a : A)
| Throw (e : exception).

Arguments Value {A} a.
Arguments Throw {A} e.

Definition and_then {A B} (c : result A) (k : A -> result B) : result B :=
  match c with
  | Value a => k a
  | Throw e => Throw e
  end.

Notation "x <-- c ;; k" := (and_then c (fun x => k))
  (at level 61, c at next level, right associativity).

Definition of_outcome {A} (o : outcome A) : result A :=
  match o with
  | Return a => Value a
  | Raise re_error => Throw ReError
  end.

(** [l[i]] for an index that is not negative. *)
Definition getitem {A} (l : list A) (i : nat) : result A :=
  match nth_error l i with
  | Some a => Value a
  | None => Throw IndexError
  end.

(** [s.startswith(prefix)], [sub in s] and [s.endswith(suffix)]. *)
Fixpoint startswith (prefix s : str) : bool :=
  match prefix, s with
  | [], _ => true
  | a :: prefix', b :: s' => (a =? b)%N && startswith prefix' s'
  | _ :: _, [] => false
  end.

Fixpoint contains (sub s : str) : bool :=
  startswith sub s ||
  match s with
  | [] => false
  | _ :: s' => contains sub s'
  end.

Definition endswith (suffix s : str) : bool :=
  startswith (rev suffix) (rev s).

(** The split of [s] at the last occurrence of the character [sep], when
    there is one. *)
Fixpoint rpartition (sep : N) (s : str) : option (str * str) :=
  match s with
  | [] => None
  | ch :: s' =>
      match rpartition sep s' with
      | Some (a, b) => Some (ch :: a, b)
      | None => if (ch =? sep)%N then Some ([], s') else None
      end
  end.

(** [s.rsplit(sep, 1)] for a separator of one character. *)
Definition rsplit_1 (s : str) (sep : N) : list str :=
  match rpartition sep s with
  | Some (a, b) => [a; b]
  | None => [s]
  end.

(** [str.lower] on one code point, tabulated where the result holds an
    ASCII character: the 26 capitals, U+0130 (which lowers to i followed by
    U+0307) and U+212A (Kelvin sign). Every other code point lowers to
    non-ASCII characters, or to itself, and is left as it is here: below a
    lower-cased string is only ever compared with ASCII strings. *)
Definition lower_char (ch : N) : list N :=
  (if (0x41 <=? ch) && (ch <=? 0x5A) then [ch + 32]
   else if ch =? 0x130 then [0x69; 0x307]
   else if ch =? 0x212A then [0x6B]
   else [ch])%N.

Definition lower (s : str) : str := flat_map lower_char s.

(** [s.split()] with no argument: the maximal runs of characters that are
    not white space. [word] holds the run being read, in reverse. *)
Fixpoint split_from (s : str) (word : str) : list str :=
  match s with
  | [] => match word with [] => [] | _ => [rev word] end
  | ch :: s' =>
      if isspace ch
      then match word with
           | [] => split_from s' []
           | _ => rev word :: split_from s' []
           end
      else split_from s' (ch :: word)
  end.

Definition split (s : str) : list str := split_from s [].

(** [sep.join(parts)] *)
Fixpoint join (sep : str) (parts : list str) : str :=
  match parts with
  | [] => []
  | [x] => x
  | x :: parts' => x ++ sep ++ join sep parts'
  end.

(** Truth value of a string: [not s] holds of the empty one. *)
Definition truthy (s : str) : bool :=
  match s with [] => false | _ => true end.

(** *** [allowed_file] *)

Definition ALLOWED_EXTENSIONS : list str :=
  [lit "pdf"; lit "docx"; lit "doc"; lit "txt"].

(** [x in ALLOWED_EXTENSIONS] *)
Definition in_set (x : str) (set : list str) : bool :=
  existsb (str_eqb x) set.

Definition allowed_file (filename : str) : result bool :=
  if contains (lit ".") filename then
    ext <-- getitem (rsplit_1 filename 0x2E%N) 1 ;;
    Value (in_set (lower ext) ALLOWED_EXTENSIONS)
  else Value false.

(** *** [SecurityManager.file_security_check] *)

(** An uploaded file: the name sent with it (a string, possibly empty) and
    its stream, given by the bytes it holds and the position of the next
    read. *)
Module FileStorage.
Record t : Type := mk {
  filename : str;
  content : list Byte.byte;
  position : Z
}.
End FileStorage.

(** [file.seek(0, 2)], [file.tell()], [file.seek(0)] and [file.read()]. *)
Definition seek_end (f : FileStorage.t) : FileStorage.t :=
  FileStorage.mk (FileStorage.filename f) (FileStorage.content f)
                 (len (FileStorage.content f)).

Definition tell (f : FileStorage.t) : Z := FileStorage.position f.

Definition seek_start (f : FileStorage.t) : FileStorage.t :=
  FileStorage.mk (FileStorage.filename f) (FileStorage.content f) 0.

Definition read (f : FileStorage.t) : list Byte.byte * FileStorage.t :=
  (skipn (Z.to_nat (FileStorage.position f)) (FileStorage.content f),
   FileStorage.mk (FileStorage.filename f) (FileStorage.content f)
                  (Z.max (FileStorage.position f) (len (FileStorage.content f)))).

(** [not file or not file.filename]: a file object is false when its name
    is empty. *)
Definition no_file (file : option FileStorage.t) : bool :=
  match file with
  | None => true
  | Some f => negb (truthy (FileStorage.filename f))
  end.

(** The ten patterns: two dots, slash, backslash, the angle brackets, bar,
    colon, star, question mark and the double quote. *)
Definition suspicious_patterns : list str :=
  [lit ".."; lit "/"; lit "\"; lit "<"; lit ">"; lit "|"; lit ":"; lit "*";
   lit "?"; [0x22%N]].

(** The method returns a pair; the file, whose stream it moves, is returned
    with it. An exception would leave the method. *)
Definition file_security_check (file : option FileStorage.t)
    : result ((bool * str) * option FileStorage.t) :=
  match file with
  | None => Value ((false, lit "No file provided"), file)
  | Some f =>
      if negb (truthy (FileStorage.filename f))
      then Value ((false, lit "No file provided"), file)
      else
        let allowed_extensions :=
          [lit "pdf"; lit "docx"; lit "doc"; lit "txt"] in
        type_ok <--
          (if contains (lit ".") (FileStorage.filename f) then
             ext <-- getitem (rsplit_1 (FileStorage.filename f) 0x2E%N) 1 ;;
             Value (in_set (lower ext) allowed_extensions)
           else Value false) ;;
        if negb type_ok then Value ((false, lit "Invalid file type"), file)
        else
          let f1 := seek_end f in
          let size := tell f1 in
          let f2 := seek_start f1 in
          if 16 * 1024 * 1024 <? size
          then Value ((false, lit "File too large"), Some f2)
          else if size <? 100
          then Value ((false, lit "File too small"), Some f2)
          else if existsb (fun pattern => contains pattern (FileStorage.filename f))
                          suspicious_patterns
          then Value ((false, lit "Invalid filename"), Some f2)
          else Value ((true, lit "File validation passed"), Some f2)
  end.

(** *** The text extractors *)

(** The libraries are collaborators: [PdfReader] stands for
    [PyPDF2.PdfReader(BytesIO(file_content)).pages] and [Document] for
    [docx.Document(BytesIO(file_content)).paragraphs], each the list of
    parts or the exception raised on the way; [extract_text] and
    [paragraph_text] give the text of a part, or raise. *)
Section Extractors.
Variables (page paragraph : Type).
Variable PdfReader : list Byte.byte -> result (list page).
Variable extract_text : page -> result str.
Variable Document : list Byte.byte -> result (list paragraph).
Variable paragraph_text : paragraph -> result str.

(** [for part in parts: text += text_of(part) + "\n"] *)
Fixpoint append_lines {part : Type} (text_of : part -> result str)
    (parts : list part) (text : str) : result str :=
  match parts with
  | [] => Value text
  | part_ :: parts' =>
      t <-- text_of part_ ;;
      append_lines text_of parts' (text ++ t ++ [10%N])
  end.

Definition extract_text_from_pdf (file_content : list Byte.byte)
    : option str :=
  match (pages <-- PdfReader file_content ;;
         text <-- append_lines extract_text pages [] ;;
         Value (strip text)) with
  | Value text => Some text
  | Throw _ => None
  end.

Definition extract_text_from_docx (file_content : list Byte.byte)
    : option str :=
  match (paragraphs <-- Document file_content ;;
         text <-- append_lines paragraph_text paragraphs [] ;;
         Value (strip text)) with
  | Value text => Some text
  | Throw _ => None
  end.
End Extractors.

Arguments extract_text_from_pdf {page} PdfReader extract_text file_content.
Arguments extract_text_from_docx {paragraph} Document paragraph_text file_content.

(** *** [explain_contract] *)

(** The two constant parts of the prompt, around the document. *)
Definition prompt_head : str :=
  lit "
    Explain this contract in simple English for non-lawyers:
    
    ".

Definition prompt_tail : str :=
  lit "  # Limit to avoid token limits
    
    Format your response EXACTLY like this:
    
    ## Contract Type & Purpose
    [What type of contract this is and its main purpose]
    
    ## Key Sections
    [Break down the most important sections and what each means]
    
    ## " ++ [0x26A0; 0xFE0F]%N ++ lit " RED FLAGS
    [Highlight any risky, unusual, or potentially problematic clauses]
    
    ## BOTTOM LINE
    [Should they sign it or not? What should they negotiate?]
    
    Use simple language, highlight dangers, avoid legal jargon.
    ".

Definition prompt_of (file_content : str) : str :=
  prompt_head ++ slice file_content 0 4000 ++ prompt_tail.

(** What the API answers: the status code and, read only when the status is
    200, [response.json()["choices"][0]["message"]["content"]], which may
    raise. *)
Module ApiResponse.
Record t : Type := mk {
  status_code : Z;
  content : result str
}.
End ApiResponse.

Section Explain.
(** [requests.post] to the chat endpoint, as a function of the prompt (the
    URL, the headers, the model and the limits are constants). *)
Variable post : str -> result ApiResponse.t.

Definition explain_contract (file_content : str) : option str :=
  match (response <-- post (prompt_of file_content) ;;
         if ApiResponse.status_code response =? 200
         then content <-- ApiResponse.content response ;; Value (Some content)
         else Value None) with
  | Value answer => answer
  | Throw _ => None
  end.
End Explain.

(** *** The endpoints *)

(** The JSON bodies the endpoints answer with. *)
Inductive json_body : Type :=
| JsonError (error : str)
| JsonErrorDetected (error : str) (detected_clauses : list Clause.t)
| JsonResults (results : Response.t)
| JsonAnalysis (success : bool) (filename analysis : str) (word_count : Z).

(** A body and a status code. *)
Definition http_response : Type := (json_body * Z)%type.

(** The JSON object of a clause request, with [document_text] a string and
    [clause_types] a list of strings, each present or not. *)
Module ClauseRequest.
Record t : Set := mk {
  document_text : option str;
  clause_types : option (list str)
}.
End ClauseRequest.

(** [d.get(key, default)] on a field that is present or not. *)
Definition get {A} (field : option A) (default : A) : A :=
  match field with
  | Some a => a
  | None => default
  end.

(** [analyze_clauses]; [get_json] is what [request.get_json()] gives, or
    that it raises. *)
Definition analyze_clauses (get_json : result ClauseRequest.t)
    : http_response :=
  match (data <-- get_json ;;
         let document_text := get (ClauseRequest.document_text data) [] in
         let clause_types := get (ClauseRequest.clause_types data) [] in
         if negb (truthy document_text)
         then Value (JsonError (lit "No document text provided"), 400)
         else
           results <--
             of_outcome (perform_enhanced_pattern_analysis
                           document_text clause_types) ;;
           Value (JsonResults results, 200)) with
  | Value response => response
  | Throw _ => (JsonErrorDetected (lit "Analysis failed") [], 500)
  end.

Section AnalyzeContract.
(** The collaborators of [analyze_contract], each taken with whatever it
    returns or raises: [secure_filename] of werkzeug, the two extractors,
    [bytes.decode('utf-8')] and [explain_contract]. *)
Variable secure_filename : str -> str.
Variable extract_pdf : list Byte.byte -> result (option str).
Variable extract_docx : list Byte.byte -> result (option str).
Variable decode_utf8 : list Byte.byte -> result str.
Variable explain : str -> result (option str).

(** [not text or len(text.strip()) < 50] *)
Definition insufficient (text : option str) : bool :=
  match text with
  | None => true
  | Some t => negb (truthy t) || (len (strip t) <? 50)
  end.

(** [not analysis] *)
Definition no_analysis (analysis : option str) : bool :=
  match analysis with
  | None => true
  | Some a => negb (truthy a)
  end.

Definition processing_error : http_response :=
  (JsonError (lit "An error occurred while processing your file. Please try again."), 500).

(** The part of the handler inside [try]. *)
Definition analyze_contract_try (file : FileStorage.t) : result http_response :=
  let (file_content, _) := read file in
  let filename := secure_filename (FileStorage.filename file) in
  ext <-- getitem (rsplit_1 filename 0x2E%N) 1 ;;
  let file_extension := lower ext in
  text <--
    (if str_eqb file_extension (lit "pdf")
        || endswith (lit ".pdf") (lower filename)
     then extract_pdf file_content
     else if in_set file_extension [lit "docx"; lit "doc"]
     then match extract_docx file_content with
          | Value text => Value text
          | Throw _ => extract_pdf file_content
          end
     else if str_eqb file_extension (lit "txt")
     then t <-- decode_utf8 file_content ;; Value (Some t)
     else extract_pdf file_content) ;;
  if insufficient text
  then Value (JsonError (lit "Could not extract enough text from the document. Please ensure the file contains readable text."), 400)
  else
    let text := get text [] in
    analysis <-- explain text ;;
    if no_analysis analysis
    then Value (JsonError (lit "Failed to analyze the contract. Please try again."), 500)
    else Value (JsonAnalysis true filename (get analysis [])
                             (len (split text)), 200).

(** [files] is what reading [request.files] gives: the file under the key
    [file], when there is one, or the exception that the read raises (for a
    body over [MAX_CONTENT_LENGTH], for one). That read and the test of the
    file type stand before [try]: an exception there leaves the handler, for
    the error handlers of the application to answer. *)
Definition analyze_contract (files : result (option FileStorage.t))
    : result http_response :=
  received <-- files ;;
  match received with
  | None => Value (JsonError (lit "No file uploaded"), 400)
  | Some file =>
      allowed <-- allowed_file (FileStorage.filename file) ;;
      if negb allowed
      then Value (JsonError (lit "File type not allowed"), 400)
      else
        match analyze_contract_try file with
        | Value response => Value response
        | Throw _ => Value processing_error
        end
  end.
End AnalyzeContract.

(** Lower-casing of the ASCII capitals alone: A-Z go to a-z, every other
    code point stays. Two strings with the same image differ at most in the
    case of ASCII letters. *)
Definition ascii_lower (ch : N) : N :=
  (if (0x41 <=? ch) && (ch <=? 0x5A) then ch + 32 else ch)%N.

(** An entry with the ASCII capitals of its two strings lower-cased. *)
Definition ascii_folded (c : Clause.t) : Clause.t :=
  {| Clause.text := map ascii_lower (Clause.text c);
     Clause.context := map ascii_lower (Clause.context c);
     Clause.type := Clause.type c;
     Clause.confidence := Clause.confidence c;
     Clause.risk_level := Clause.risk_level c;
     Clause.position := Clause.position c |}.

(** ** Facts about slicing and the matcher *)

Section SliceFacts.
Context {A : Type}.
Implicit Types x : list A.

Lemma len_app x y : len (x ++ y) = len x + len y.
Proof. unfold len. rewrite length_app. lia. Qed.

Lemma slice_prefix x (n : nat) : slice x 0 (Z.of_nat n) = firstn n x.
Proof.
  unfold slice, slice_index, len.
  change (0 <? 0) with false. cbv iota.
  destruct (Z.ltb_spec (Z.of_nat n) 0); [lia|].
  rewrite (Z.min_l 0) by lia. rewrite Z.sub_0_r. cbn [Z.to_nat skipn].
  destruct (Z.min_spec (Z.of_nat n) (Z.of_nat (length x))) as [[H1 ->]|[H1 ->]];
    rewrite Nat2Z.id; [reflexivity|].
  rewrite !firstn_all2 by lia. reflexivity.
Qed.

Lemma slice_inside x (i j : nat) :
  (i <= j <= length x)%nat ->
  slice x (Z.of_nat i) (Z.of_nat j) = firstn (j - i) (skipn i x).
Proof.
  intros H. unfold slice, slice_index, len.
  destruct (Z.ltb_spec (Z.of_nat i) 0); [lia|].
  destruct (Z.ltb_spec (Z.of_nat j) 0); [lia|].
  rewrite !Z.min_l by lia.
  rewrite Nat2Z.id. f_equal. lia.
Qed.

End SliceFacts.

Section MatcherFacts.
Import Re.
Implicit Types (p : pattern) (s t : str).

Lemma sre_match_repeat p s :
  sre_match (MAX_REPEAT_ANY :: p) s = repeat_any p s.
Proof.
  induction s as [|ch s IH]; [reflexivity|].
  cbn [repeat_any]. rewrite <- IH. reflexivity.
Qed.

(** A match consumes at least [min_width p] characters and stays inside
    the text. *)
Lemma sre_match_bounds p :
  forall s n, sre_match p s = Some n -> (min_width p <= n <= length s)%nat.
Proof.
  induction p as [|[av| |] p IH]; intros s n H.
  - cbn in H. injection H as <-. cbn. lia.
  - destruct s as [|ch s]; cbn in H; [discriminate|].
    destruct (literal_ignore av ch); [|discriminate].
    destruct (sre_match p s) as [k|] eqn:E; [|discriminate].
    injection H as <-. apply IH in E. cbn. lia.
  - destruct s as [|ch s]; cbn in H; [discriminate|].
    destruct (sre_match p s) as [k|] eqn:E; [|discriminate].
    injection H as <-. apply IH in E. cbn. lia.
  - rewrite sre_match_repeat in H. cbn [min_width].
    revert n H. induction s as [|ch s IHs]; intros n H; cbn [repeat_any] in H.
    + apply IH in H. exact H.
    + destruct (repeat_any p s) as [k|] eqn:E.
      * injection H as <-. specialize (IHs k eq_refl). cbn. lia.
      * apply IH in H. exact H.
Qed.

Lemma repeat_any_of_match p s :
  sre_match p s <> None -> repeat_any p s <> None.
Proof.
  destruct s as [|ch s]; cbn [repeat_any]; [tauto|].
  destruct (repeat_any p s); [discriminate | tauto].
Qed.

(** A match at the head of [s] remains possible when the text goes on. *)
Lemma sre_match_extend p :
  forall s t, sre_match p s <> None -> sre_match p (s ++ t) <> None.
Proof.
  induction p as [|[av| |] p IH]; intros s t H.
  - cbn. discriminate.
  - destruct s as [|ch s]; cbn in H |- *; [congruence|].
    destruct (literal_ignore av ch); [|congruence].
    specialize (IH s t).
    destruct (sre_match p s); [|cbn in H; congruence].
    destruct (sre_match p (s ++ t)); [discriminate|].
    exfalso. apply IH; [discriminate | reflexivity].
  - destruct s as [|ch s]; cbn in H |- *; [congruence|].
    specialize (IH s t).
    destruct (sre_match p s); [|cbn in H; congruence].
    destruct (sre_match p (s ++ t)); [discriminate|].
    exfalso. apply IH; [discriminate | reflexivity].
  - rewrite sre_match_repeat in H |- *.
    induction s as [|ch s IHs]; cbn [repeat_any app] in H |- *.
    + apply repeat_any_of_match. apply (IH [] t). exact H.
    + destruct (repeat_any p s) as [k|] eqn:E.
      * destruct (repeat_any p (s ++ t)); [discriminate|].
        exfalso. apply IHs; [discriminate | reflexivity].
      * destruct (repeat_any p (s ++ t)); [discriminate|].
        apply (IH (ch :: s) t). exact H.
Qed.

(** Every match the scanner reports is a match of the pattern, found at
    an offset the previous match left free. *)
Lemma scan_spec p :
  forall s pos skip m,
    (skip <= length s)%nat -> In m (scan p s pos skip) ->
    exists i n : nat,
      (skip <= i)%nat /\ (i + n <= length s)%nat /\
      start m = Z.of_nat (pos + i) /\ end_ m = Z.of_nat (pos + i + n) /\
      sre_match p (skipn i s) = Some n.
Proof.
  induction s as [|ch s IH]; intros pos skip m Hk Hin.
  - cbn in Hk. assert (skip = 0)%nat as -> by lia. cbn in Hin.
    destruct (sre_match p []) as [n|] eqn:E; [|contradiction].
    destruct Hin as [<-|[]]. pose proof (sre_match_bounds _ _ _ E) as B.
    exists 0%nat, n. cbn in B |- *. rewrite Nat.add_0_r. repeat split; auto; lia.
  - destruct skip as [|k]; cbn [scan] in Hin.
    + destruct (sre_match p (ch :: s)) as [n|] eqn:E.
      * pose proof (sre_match_bounds _ _ _ E) as B. cbn in B.
        destruct Hin as [<-|Hin].
        -- exists 0%nat, n. cbn. rewrite Nat.add_0_r. repeat split; auto; lia.
        -- apply IH in Hin; [|lia].
           destruct Hin as (i & n' & H1 & H2 & H3 & H4 & H5).
           exists (S i), n'. cbn [skipn length].
           repeat split; auto; lia.
      * apply IH in Hin; [|lia].
        destruct Hin as (i & n' & H1 & H2 & H3 & H4 & H5).
        exists (S i), n'. cbn [skipn length].
        repeat split; auto; lia.
    + cbn in Hk. apply IH in Hin; [|lia].
      destruct Hin as (i & n' & H1 & H2 & H3 & H4 & H5).
      exists (S i), n'. cbn [skipn length].
      repeat split; auto; lia.
Qed.

(** The scanner yields its matches from left to right, none overlapping
    the one before. *)
Lemma scan_sorted p :
  forall s pos skip,
    (skip <= length s)%nat -> StronglySorted precedes (scan p s pos skip).
Proof.
  induction s as [|ch s IH]; intros pos skip Hk.
  - destruct skip; cbn; [|constructor].
    destruct (sre_match p []); repeat constructor.
  - destruct skip as [|k]; cbn [scan].
    + destruct (sre_match p (ch :: s)) as [n|] eqn:E.
      * pose proof (sre_match_bounds _ _ _ E) as B. cbn in B.
        constructor; [apply IH; lia|].
        apply Forall_forall. intros m Hin.
        apply scan_spec in Hin; [|lia].
        destruct Hin as (i & n' & H1 & H2 & H3 & H4 & H5).
        unfold precedes. cbn. rewrite H3. lia.
      * apply IH. lia.
    + cbn in Hk. apply IH. lia.
Qed.

(** The scanner finds a match whenever the pattern matches somewhere. *)
Lemma scan_complete p :
  forall s pos (i : nat),
    sre_match p (skipn i s) <> None -> scan p s pos 0 <> [].
Proof.
  induction s as [|ch s IH]; intros pos i H.
  - rewrite skipn_nil in H. cbn.
    destruct (sre_match p []); [discriminate | congruence].
  - cbn [scan]. destruct (sre_match p (ch :: s)) eqn:E; [discriminate|].
    destruct i as [|i]; [cbn in H; congruence|].
    cbn [skipn] in H. apply (IH (S pos) i H).
Qed.

Lemma scan_matches_at p text m :
  In m (scan p text 0 0) -> matches_at p text m.
Proof.
  intros Hin. apply scan_spec in Hin; [|lia].
  destruct Hin as (i & n & _ & H2 & H3 & H4 & H5).
  exists i, n. cbn in H3, H4. auto.
Qed.
End MatcherFacts.

(** ** The loops compute [all_clauses] *)

Lemma str_eqb_eq (a b : str) : str_eqb a b = true <-> a = b.
Proof.
  unfold str_eqb. destruct (str_eq_dec a b); split; congruence.
Qed.

Lemma dict_get_In {V} (d : list (str * V)) k v :
  dict_get d k = Some v -> In (k, v) d.
Proof.
  induction d as [|[k' v'] d IH]; cbn; [discriminate|].
  destruct (str_eqb k k') eqn:E.
  - apply str_eqb_eq in E. intros [= ->]. left. congruence.
  - intros H. right. apply IH, H.
Qed.

(** Every pattern of the table lies in the fragment and needs at least one
    character. *)
Lemma patterns_ok :
  forallb (fun kv => forallb rule_ok (snd kv)) patterns = true.
Proof. vm_compute. reflexivity. Qed.

Lemma rules_of_ok clause_type r :
  In r (rules_of clause_type) -> rule_ok r = true.
Proof.
  unfold rules_of. destruct (dict_get patterns clause_type) as [rules|] eqn:E;
    [|contradiction].
  intros Hin. apply dict_get_In in E.
  pose proof patterns_ok as H. rewrite forallb_forall in H.
  specialize (H _ E). cbn in H. rewrite forallb_forall in H. apply H, Hin.
Qed.

Lemma rule_ok_parse r :
  rule_ok r = true ->
  exists p, Re.sre_parse (fst (fst r)) = Some p /\ (0 < min_width p)%nat.
Proof.
  unfold rule_ok. destruct (Re.sre_parse (fst (fst r))) as [p|]; [|discriminate].
  intros H. exists p. split; [reflexivity|]. apply Nat.ltb_lt, H.
Qed.

Lemma fold_append_clause text clause_type confidence risk matches :
  forall detected_clauses,
    fold_left (append_clause text clause_type confidence risk)
              matches detected_clauses
    = detected_clauses ++ map (clause_of text clause_type confidence risk) matches.
Proof.
  induction matches as [|m ms IH]; intros acc; cbn.
  - rewrite app_nil_r. reflexivity.
  - rewrite IH. unfold append_clause, clause_of. rewrite <- app_assoc.
    reflexivity.
Qed.

Lemma for_rules_eq text clause_type rules :
  (forall r, In r rules -> rule_ok r = true) ->
  forall detected_clauses,
    for_rules text clause_type rules detected_clauses
    = Return (detected_clauses ++ flat_map (rule_clauses text clause_type) rules).
Proof.
  induction rules as [|[[pattern confidence] risk] rules IH]; intros Hok acc; cbn.
  - rewrite app_nil_r. reflexivity.
  - destruct (rule_ok_parse (pattern, confidence, risk)) as (p & Hp & _);
      [apply Hok; left; reflexivity|].
    cbn in Hp. unfold Re.finditer, rule_clauses, rule_matches. cbn [fst snd].
    rewrite Hp. cbn [bind].
    rewrite IH by (intros r Hr; apply Hok; right; exact Hr).
    rewrite fold_append_clause, <- app_assoc. reflexivity.
Qed.

Lemma for_clause_types_eq text clause_types :
  forall detected_clauses,
    for_clause_types text clause_types detected_clauses
    = Return (detected_clauses ++ all_clauses text clause_types).
Proof.
  induction clause_types as [|clause_type cts IH]; intros acc.
  - cbn. rewrite app_nil_r. reflexivity.
  - pose proof (rules_of_ok clause_type) as Hok.
    cbn [for_clause_types]. unfold all_clauses in *. cbn [flat_map].
    unfold category_clauses at 1. unfold rules_of in *.
    destruct (dict_get patterns clause_type) as [rules|].
    + rewrite for_rules_eq by exact Hok. cbn [bind].
      rewrite IH, <- app_assoc. reflexivity.
    + rewrite IH. reflexivity.
Qed.

(** The function returns, with the first 15 accumulated entries and the
    count of all of them. *)
Lemma analysis_eq text clause_types :
  perform_enhanced_pattern_analysis text clause_types
  = Return {| Response.detected_clauses := firstn 15 (all_clauses text clause_types);
              Response.analysis_method := lit "enhanced_pattern_matching";
              Response.success := true;
              Response.total_found := len (all_clauses text clause_types) |}.
Proof.
  unfold perform_enhanced_pattern_analysis.
  rewrite for_clause_types_eq. cbn [bind app].
  rewrite (slice_prefix _ 15). reflexivity.
Qed.

(** Where an accumulated entry comes from. *)
Lemma in_all_clauses text clause_types c :
  In c (all_clauses text clause_types) ->
  exists clause_type r p m,
    In clause_type clause_types /\ In r (rules_of clause_type) /\
    Re.sre_parse (fst (fst r)) = Some p /\ (0 < min_width p)%nat /\
    In m (Re.scan p text 0 0) /\
    c = clause_of text clause_type (snd (fst r)) (snd r) m.
Proof.
  unfold all_clauses. rewrite in_flat_map. intros (clause_type & Hct & Hc).
  unfold category_clauses in Hc. rewrite in_flat_map in Hc.
  destruct Hc as (r & Hr & Hc).
  destruct (rule_ok_parse r (rules_of_ok _ _ Hr)) as (p & Hp & Hw).
  unfold rule_clauses, rule_matches in Hc. rewrite Hp, in_map_iff in Hc.
  destruct Hc as (m & <- & Hm).
  exists clause_type, r, p, m. auto 7.
Qed.

Lemma in_firstn {A} (n : nat) (l : list A) x : In x (firstn n l) -> In x l.
Proof.
  intros H. rewrite <- (firstn_skipn n l). apply in_or_app. left. exact H.
Qed.

(** The span behind an accumulated entry: a non-empty match of one of the
    rules of the entry's category, inside the text. *)
Lemma clause_span text clause_types c :
  In c (all_clauses text clause_types) ->
  exists clause_type r p m (i n : nat),
    In clause_type clause_types /\ In r (rules_of clause_type) /\
    Re.sre_parse (fst (fst r)) = Some p /\
    In m (rule_matches text r) /\
    c = clause_of text clause_type (snd (fst r)) (snd r) m /\
    Re.start m = Z.of_nat i /\ Re.end_ m = Z.of_nat (i + n) /\
    (0 < n)%nat /\ (i + n <= length text)%nat /\
    Re.sre_match p (skipn i text) = Some n.
Proof.
  intros Hc. apply in_all_clauses in Hc.
  destruct Hc as (clause_type & r & p & m & Hct & Hr & Hp & Hw & Hm & ->).
  destruct (scan_matches_at _ _ _ Hm) as (i & n & Hs & He & Hle & Hmatch).
  pose proof (sre_match_bounds _ _ _ Hmatch) as [B _].
  exists clause_type, r, p, m, i, n.
  unfold rule_matches. rewrite Hp. repeat split; auto; lia.
Qed.

Lemma StronglySorted_map {A B} (f : A -> B) (R : A -> A -> Prop)
    (Q : B -> B -> Prop) (l : list A) :
  (forall a b, R a b -> Q (f a) (f b)) ->
  StronglySorted R l -> StronglySorted Q (map f l).
Proof.
  intros HRQ. induction 1 as [|a l Hs IH Hall]; cbn; constructor; auto.
  apply Forall_map. eapply Forall_impl; [|exact Hall]. intros b. apply HRQ.
Qed.

(** ** The claims *)

Lemma length_flat_map_sum {A B} (f : A -> list B) (l : list A) :
  length (flat_map f l) = list_sum (map (fun x => length (f x)) l).
Proof.
  induction l as [|a l IH]; cbn; [reflexivity|].
  rewrite length_app, IH. reflexivity.
Qed.

(** C1. For every text and category list the function returns. The returned
    list is the first 15 of all the entries, one per match of each rule of
    each requested category in accumulation order, so it has at most 15
    entries; [total_found] is the number of all those entries, that is the
    number of matches summed over the rules of the requested categories,
    hence at least the length of the returned list. *)
Theorem result_capped_total_counted (text : str) (clause_types : list str) :
  exists r,
    perform_enhanced_pattern_analysis text clause_types = Return r /\
    for_clause_types text clause_types []
    = Return (all_clauses text clause_types) /\
    Response.detected_clauses r = firstn 15 (all_clauses text clause_types) /\
    Response.total_found r = len (all_clauses text clause_types) /\
    Response.total_found r
    = Z.of_nat
        (list_sum
           (map (fun clause_type =>
                   list_sum
                     (map (fun rule_ => length (rule_matches text rule_))
                          (rules_of clause_type)))
                clause_types)) /\
    len (Response.detected_clauses r) <= 15 /\
    len (Response.detected_clauses r) <= Response.total_found r.
Proof.
  eexists. split; [apply analysis_eq|].
  split; [apply for_clause_types_eq|].
  cbn [Response.detected_clauses Response.total_found].
  split; [reflexivity|]. split; [reflexivity|]. split.
  - unfold len, all_clauses. rewrite length_flat_map_sum. do 2 f_equal.
    apply map_ext. intros clause_type. unfold category_clauses.
    rewrite length_flat_map_sum. f_equal. apply map_ext. intros rule_.
    unfold rule_clauses. apply length_map.
  - unfold len. rewrite length_firstn. lia.
Qed.

(** C2. Every returned entry comes from a match [m] of one of the rules of
    its category, spanning [s, e) with 0 <= s <= e <= L in a text of length
    L, and its context is text[max(0,s-50):min(L,e+50)].strip(): the text
    splits into a part of max(0,s-50) characters, the window up to offset
    min(L,e+50), and the rest, and the context is the window stripped. *)
Theorem context_is_clipped_window (text : str) (clause_types : list str) :
  exists r,
    perform_enhanced_pattern_analysis text clause_types = Return r /\
    forall c, In c (Response.detected_clauses r) ->
      exists rule_ m,
        In rule_ (rules_of (Clause.type c)) /\
        In m (rule_matches text rule_) /\
        Clause.position c = Re.start m /\
        let s := Re.start m in
        let e := Re.end_ m in
        let L := len text in
        0 <= s <= e /\ e <= L /\
        Clause.context c
          = strip (slice text (Z.max 0 (s - 50)) (Z.min L (e + 50))) /\
        exists before window after,
          text = before ++ window ++ after /\
          len before = Z.max 0 (s - 50) /\
          len (before ++ window) = Z.min L (e + 50) /\
          Clause.context c = strip window.
Proof.
  eexists. split; [apply analysis_eq|].
  cbn [Response.detected_clauses]. intros c Hc.
  apply in_firstn, clause_span in Hc.
  destruct Hc as (ct & r & p & m & i & n & _ & Hr & _ & Hm & -> & Hs & He & Hn & Hle & _).
  exists r, m. unfold clause_of.
  cbn [Clause.type Clause.position Clause.context]. unfold len. rewrite Hs, He.
  repeat split; auto; try lia.
  set (a := Z.to_nat (Z.max 0 (Z.of_nat i - 50))).
  set (b := Z.to_nat (Z.min (Z.of_nat (length text)) (Z.of_nat (i + n) + 50))).
  assert (Hab : (a <= b <= length text)%nat) by (unfold a, b; lia).
  replace (Z.max 0 (Z.of_nat i - 50)) with (Z.of_nat a) by (unfold a; lia).
  replace (Z.min (Z.of_nat (length text)) (Z.of_nat (i + n) + 50))
    with (Z.of_nat b) by (unfold b; lia).
  rewrite slice_inside by exact Hab.
  exists (firstn a text), (firstn (b - a) (skipn a text)),
         (skipn (b - a) (skipn a text)).
  rewrite firstn_skipn, firstn_skipn, length_app, !length_firstn, length_skipn.
  repeat split; auto; lia.
Qed.

(** C3. The returned list is the first 15 entries of: for each requested
    category in the order given, for each of its rules in the order of the
    table, the entries of the rule's matches in the order [finditer] yields
    them, which is from left to right (strictly ascending position, no match
    starting before the previous one ends). Nothing is sorted afterwards. *)
Theorem matches_in_accumulation_order (text : str) (clause_types : list str) :
  exists r,
    perform_enhanced_pattern_analysis text clause_types = Return r /\
    Response.detected_clauses r
    = firstn 15
        (flat_map
           (fun clause_type =>
              flat_map
                (fun rule_ : rule =>
                   map (clause_of text clause_type (snd (fst rule_)) (snd rule_))
                       (rule_matches text rule_))
                (rules_of clause_type))
           clause_types) /\
    forall clause_type rule_,
      In rule_ (rules_of clause_type) ->
      StronglySorted precedes (rule_matches text rule_) /\
      StronglySorted (fun a b => Clause.position a < Clause.position b)
        (rule_clauses text clause_type rule_).
Proof.
  eexists. split; [apply analysis_eq|].
  split; [reflexivity|].
  intros clause_type r _.
  assert (Hs : StronglySorted precedes (rule_matches text r)).
  { unfold rule_matches. destruct (Re.sre_parse (fst (fst r))).
    - apply scan_sorted. lia.
    - constructor. }
  split; [exact Hs|].
  unfold rule_clauses. eapply StronglySorted_map; [|exact Hs].
  intros a b [_ H]. exact H.
Qed.

(** C4. Every returned entry has 0 <= position < len(text), and the position
    is the offset at which a match of one of its category's rules starts. *)
Theorem position_within_text (text : str) (clause_types : list str) :
  exists r,
    perform_enhanced_pattern_analysis text clause_types = Return r /\
    forall c, In c (Response.detected_clauses r) ->
      0 <= Clause.position c < len text /\
      exists rule_ m,
        In rule_ (rules_of (Clause.type c)) /\
        In m (rule_matches text rule_) /\
        Clause.position c = Re.start m.
Proof.
  eexists. split; [apply analysis_eq|].
  cbn [Response.detected_clauses]. intros c Hc.
  apply in_firstn, clause_span in Hc.
  destruct Hc as (ct & r & p & m & i & n & _ & Hr & _ & Hm & -> & Hs & He & Hn & Hle & _).
  unfold clause_of. cbn [Clause.type Clause.position]. unfold len.
  split; [lia|]. exists r, m. auto.
Qed.


(** The first governance rule carries 0.95 and high, and its pattern matches
    the scenario's sentence from the word "shareholder" on. *)
Lemma governance_first_rule :
  exists pat rest p,
    rules_of (lit "governance") = (pat, 0.95%float, lit "high") :: rest /\
    Re.sre_parse pat = Some p /\
    Re.sre_match p (skipn 4 governance_sentence) <> None.
Proof.
  eexists _, _, _. split; [vm_compute; reflexivity|].
  split; [vm_compute; reflexivity|].
  vm_compute. discriminate.
Qed.

(** C5. Whatever surrounds the sentence in the text, a request for the
    single category governance returns at least one entry of type
    governance with confidence 0.95 and risk level high. *)
Theorem governance_scenario (before after : str) :
  exists r c,
    perform_enhanced_pattern_analysis
      (before ++ governance_sentence ++ after) [lit "governance"] = Return r /\
    In c (Response.detected_clauses r) /\
    Clause.type c = lit "governance" /\
    Clause.confidence c = 0.95%float /\
    Clause.risk_level c = lit "high".
Proof.
  set (text := before ++ governance_sentence ++ after).
  destruct governance_first_rule as (pat & rest & p & Hrules & Hp & Hmatch).
  assert (Hscan : Re.scan p text 0 0 <> []).
  { apply (scan_complete p text 0 (length before + 4)).
    unfold text. rewrite skipn_app, skipn_all2 by lia.
    replace (length before + 4 - length before)%nat with 4%nat by lia.
    rewrite skipn_app. cbn [app].
    change (4 - length governance_sentence)%nat with 0%nat.
    apply sre_match_extend, Hmatch. }
  destruct (Re.scan p text 0 0) as [|m ms] eqn:E; [congruence|].
  eexists. exists (clause_of text (lit "governance") 0.95%float (lit "high") m).
  split; [apply analysis_eq|].
  split; [|repeat split].
  cbn [Response.detected_clauses]. unfold all_clauses. cbn [flat_map].
  unfold category_clauses. rewrite Hrules. cbn [flat_map].
  unfold rule_clauses at 1, rule_matches. cbn [fst snd]. rewrite Hp, E.
  cbn [map app firstn]. left. reflexivity.
Qed.

Lemma dict_get_None {V} (d : list (str * V)) k :
  ~ In k (map fst d) -> dict_get d k = None.
Proof.
  induction d as [|[k' v'] d IH]; cbn; [reflexivity|]. intros H.
  destruct (str_eqb k k') eqn:E.
  - apply str_eqb_eq in E. exfalso. apply H. left. congruence.
  - apply IH. intros Hin. apply H. right. exact Hin.
Qed.

Lemma all_clauses_app text cts1 cts2 :
  all_clauses text (cts1 ++ cts2)
  = all_clauses text cts1 ++ all_clauses text cts2.
Proof. unfold all_clauses. apply flat_map_app. Qed.

Lemma flat_map_nil {A B} (f : A -> list B) (l : list A) :
  (forall x, In x l -> f x = []) -> flat_map f l = [].
Proof.
  induction l as [|a l IH]; cbn; intros H; [reflexivity|].
  rewrite (H a) by (left; reflexivity). apply IH. intros x Hx. apply H.
  right. exact Hx.
Qed.

(** The keys of the table. *)
Lemma patterns_keys :
  map fst patterns
  = [lit "governance"; lit "drag_along"; lit "tag_along";
     lit "priority_allocation"; lit "non_compete"].
Proof. reflexivity. Qed.

(** C6. A requested name that is none of the five keys of the table adds
    nothing and raises nothing: the function returns, with success true,
    exactly what it returns for the request without that name; and a request
    that names only such categories, or none at all, returns the empty list
    with success true. *)
Theorem unknown_category_contributes_nothing
    (text : str) (before after : list str) (clause_type : str)
    (Hunknown : ~ In clause_type
                    [lit "governance"; lit "drag_along"; lit "tag_along";
                     lit "priority_allocation"; lit "non_compete"]) :
  (exists r,
     perform_enhanced_pattern_analysis text (before ++ clause_type :: after)
       = Return r /\
     perform_enhanced_pattern_analysis text (before ++ after) = Return r /\
     Response.success r = true) /\
  (exists r,
     perform_enhanced_pattern_analysis text [clause_type] = Return r /\
     Response.detected_clauses r = [] /\ Response.success r = true) /\
  (exists r,
     perform_enhanced_pattern_analysis text [] = Return r /\
     Response.detected_clauses r = [] /\ Response.success r = true).
Proof.
  rewrite <- patterns_keys in Hunknown.
  assert (Hnone : category_clauses text clause_type = []).
  { unfold category_clauses, rules_of.
    rewrite (dict_get_None _ _ Hunknown). reflexivity. }
  assert (Happ : all_clauses text (before ++ clause_type :: after)
                 = all_clauses text (before ++ after)).
  { rewrite !all_clauses_app. unfold all_clauses at 2. cbn [flat_map].
    rewrite Hnone. reflexivity. }
  repeat split.
  - eexists. split; [apply analysis_eq|]. rewrite Happ.
    split; [apply analysis_eq | reflexivity].
  - eexists. split; [apply analysis_eq|].
    unfold all_clauses. cbn [flat_map]. rewrite Hnone.
    split; reflexivity.
  - eexists. split; [apply analysis_eq|]. split; reflexivity.
Qed.

Lemma unknown_category_contributes_nothing_witness :
  exists r,
    perform_enhanced_pattern_analysis
      (lit "the offeror may require all holders to sell their shares")
      [lit "warranty"; lit "drag_along"] = Return r /\
    perform_enhanced_pattern_analysis
      (lit "the offeror may require all holders to sell their shares")
      [lit "drag_along"] = Return r /\
    Response.success r = true.
Proof.
  refine (proj1 (unknown_category_contributes_nothing
                   (lit "the offeror may require all holders to sell their shares")
                   [] [lit "drag_along"] (lit "warranty") _)).
  intros H. vm_compute in H. intuition discriminate.
Defined.

Lemma rule_matches_empty_text r :
  rule_ok r = true -> rule_matches [] r = [].
Proof.
  intros H. destruct (rule_ok_parse r H) as (p & Hp & Hw).
  unfold rule_matches. rewrite Hp. cbn.
  destruct (Re.sre_match p []) as [n|] eqn:E; [|reflexivity].
  apply sre_match_bounds in E. cbn in E. lia.
Qed.

(** C7. On the empty text every request, and so every non-empty one, returns
    the empty list, [total_found] 0 and success true. *)
Theorem empty_text_no_matches (clause_types : list str) :
  perform_enhanced_pattern_analysis [] clause_types
  = Return {| Response.detected_clauses := [];
              Response.analysis_method := lit "enhanced_pattern_matching";
              Response.success := true;
              Response.total_found := 0 |}.
Proof.
  rewrite analysis_eq.
  assert (H : all_clauses [] clause_types = []).
  { apply flat_map_nil. intros ct _. apply flat_map_nil. intros r Hr.
    unfold rule_clauses. rewrite rule_matches_empty_text; [reflexivity|].
    apply (rules_of_ok _ _ Hr). }
  rewrite H. reflexivity.
Qed.

Section StoreFacts.
Import Stateful.

Lemma put_here (s : store) (a : nat) (o o' : object) :
  nth_error s a = Some o -> nth_error (put a o' s) a = Some o'.
Proof.
  revert a. induction s as [|x s IH]; intros [|a] H; cbn in *;
    try discriminate; [reflexivity | apply IH, H].
Qed.

Lemma put_same (s : store) (a : nat) (o : object) :
  nth_error s a = Some o -> put a o s = s.
Proof.
  revert a. induction s as [|x s IH]; intros [|a] H; cbn in *;
    try discriminate.
  - congruence.
  - rewrite (IH a H). reflexivity.
Qed.

Lemma put_put (s : store) (a : nat) (o o' : object) :
  put a o' (put a o s) = put a o' s.
Proof.
  revert a. induction s as [|x s IH]; intros [|a]; cbn; try reflexivity.
  rewrite IH. reflexivity.
Qed.

Lemma put_end (s : store) (o o' : object) :
  put (length s) o' (s ++ [o]) = s ++ [o'].
Proof.
  induction s as [|x s IH]; cbn; [reflexivity | rewrite IH; reflexivity].
Qed.

(** The loops, on a store that holds the list [items] at [d]: they leave
    that list extended and touch nothing else. *)
Lemma for_matches_store text clause_type confidence risk d matches :
  forall s items,
    nth_error s d = Some (ClauseList items) ->
    for_matches text clause_type confidence risk d matches s
    = inr (tt, put d (ClauseList
                        (items ++ map (clause_of text clause_type
                                                 confidence risk) matches)) s).
Proof.
  induction matches as [|m ms IH]; intros s items Hd.
  - cbn. rewrite app_nil_r, (put_same s d _ Hd). reflexivity.
  - cbn [for_matches]. unfold seq, append. rewrite Hd.
    rewrite (IH _ _ (put_here s d _ _ Hd)), put_put.
    cbn [map]. rewrite <- app_assoc. reflexivity.
Qed.

Lemma for_rules_store text clause_type d rules :
  (forall r, In r rules -> rule_ok r = true) ->
  forall s items,
    nth_error s d = Some (ClauseList items) ->
    for_rules text clause_type d rules s
    = inr (tt, put d (ClauseList
                        (items ++ flat_map (rule_clauses text clause_type)
                                           rules)) s).
Proof.
  induction rules as [|[[pattern confidence] risk] rules IH];
    intros Hok s items Hd.
  - cbn. rewrite app_nil_r, (put_same s d _ Hd). reflexivity.
  - destruct (rule_ok_parse (pattern, confidence, risk)) as (p & Hp & _);
      [apply Hok; left; reflexivity|].
    cbn [fst] in Hp. cbn [for_rules flat_map]. unfold seq at 1, finditer.
    unfold Re.finditer. rewrite Hp. unfold seq at 1.
    rewrite (for_matches_store _ _ _ _ _ _ s items Hd).
    rewrite (IH (fun r Hr => Hok r (or_intror Hr)) _ _ (put_here s d _ _ Hd)).
    rewrite put_put. unfold rule_clauses at 2, rule_matches. cbn [fst snd].
    rewrite Hp, <- app_assoc. reflexivity.
Qed.

Lemma for_clause_types_store text d clause_types :
  forall s items,
    nth_error s d = Some (ClauseList items) ->
    for_clause_types text d clause_types s
    = inr (tt, put d (ClauseList (items ++ all_clauses text clause_types)) s).
Proof.
  induction clause_types as [|clause_type cts IH]; intros s items Hd.
  - cbn. rewrite app_nil_r, (put_same s d _ Hd). reflexivity.
  - pose proof (rules_of_ok clause_type) as Hok.
    cbn [for_clause_types]. unfold all_clauses in *. cbn [flat_map].
    unfold category_clauses at 1. unfold rules_of in *.
    destruct (dict_get patterns clause_type) as [rules|].
    + unfold seq. rewrite (for_rules_store _ _ _ _ Hok s items Hd).
      rewrite (IH _ _ (put_here s d _ _ Hd)), put_put, <- app_assoc.
      reflexivity.
    + cbn [flat_map app]. apply IH, Hd.
Qed.

(** A call in any store that holds the request at [a]: it adds two lists at
    the end of the store, the accumulated entries and their first 15, and
    returns the dict that refers to the second. *)
Lemma perform_store text (clause_types : list str) (s : store) (a : nat) :
  nth_error s a = Some (StrList clause_types) ->
  Stateful.perform_enhanced_pattern_analysis text a s
  = inr ({| detected_clauses := S (length s);
            analysis_method := lit "enhanced_pattern_matching";
            success := true;
            total_found := len (all_clauses text clause_types) |},
         s ++ [ClauseList (all_clauses text clause_types);
               ClauseList (firstn 15 (all_clauses text clause_types))]).
Proof.
  intros Ha. unfold Stateful.perform_enhanced_pattern_analysis.
  unfold seq at 1, new. unfold seq at 1, get_strs.
  rewrite nth_error_app1 by (apply nth_error_Some; congruence).
  rewrite Ha. unfold seq at 1.
  rewrite (for_clause_types_store text (length s) clause_types
             (s ++ [ClauseList []]) []).
  2:{ rewrite nth_error_app2, Nat.sub_diag by lia. reflexivity. }
  rewrite put_end. cbn [app]. unfold seq at 1, get_clauses.
  rewrite nth_error_app2, Nat.sub_diag by lia. cbn [nth_error].
  unfold seq, new, ret. rewrite (slice_prefix _ 15), length_app.
  cbn [length]. rewrite Nat.add_1_r, <- app_assoc. reflexivity.
Qed.
End StoreFacts.

(** C8. The call is run on Python's store: the text, and the address of the
    caller's list of names in a store that may hold anything else. Whatever
    else the store holds, the call returns, and its response read in the
    store it leaves is the response the function of the text and of the
    names alone gives: nothing else is read. No object that was in the
    store is changed: the call only adds its own two lists. Called again
    with the same inputs in the store the first call left, it returns the
    same response, in a list of its own: the first response is still what
    it was. *)
Theorem analysis_deterministic_stateless
    (text : str) (clause_types : list str) (s : Stateful.store) (a : nat)
    (Hrequest : nth_error s a = Some (Stateful.StrList clause_types)) :
  exists first s1 second s2 r,
    Stateful.perform_enhanced_pattern_analysis text a s = inr (first, s1) /\
    Stateful.perform_enhanced_pattern_analysis text a s1 = inr (second, s2) /\
    perform_enhanced_pattern_analysis text clause_types = Return r /\
    Stateful.view first s1 = Some r /\
    Stateful.view second s2 = Some r /\
    Stateful.view first s2 = Some r /\
    Stateful.detected_clauses first <> Stateful.detected_clauses second /\
    (forall b o, nth_error s b = Some o ->
                 nth_error s1 b = Some o /\ nth_error s2 b = Some o).
Proof.
  set (all := all_clauses text clause_types).
  set (added := [Stateful.ClauseList all; Stateful.ClauseList (firstn 15 all)]).
  assert (Hrequest1 : nth_error (s ++ added) a
                      = Some (Stateful.StrList clause_types)).
  { rewrite nth_error_app1 by (apply nth_error_Some; congruence).
    exact Hrequest. }
  do 5 eexists.
  split; [apply (perform_store text clause_types s a Hrequest)|].
  split; [apply (perform_store text clause_types _ a Hrequest1)|].
  split; [apply analysis_eq|].
  fold all. fold added.
  assert (Hfirst : nth_error (s ++ added) (S (length s))
                   = Some (Stateful.ClauseList (firstn 15 all))).
  { rewrite nth_error_app2 by lia.
    replace (S (length s) - length s)%nat with 1%nat by lia. reflexivity. }
  split; [unfold Stateful.view; cbn [Stateful.detected_clauses];
          rewrite Hfirst; reflexivity|].
  split.
  { unfold Stateful.view. cbn [Stateful.detected_clauses].
    rewrite nth_error_app2 by lia.
    replace (S (length (s ++ added)) - length (s ++ added))%nat with 1%nat
      by lia.
    reflexivity. }
  split.
  { unfold Stateful.view. cbn [Stateful.detected_clauses].
    rewrite nth_error_app1
      by (rewrite length_app; unfold added; cbn [length]; lia).
    rewrite Hfirst. reflexivity. }
  split.
  { cbn [Stateful.detected_clauses]. rewrite length_app. unfold added.
    cbn [length]. lia. }
  intros b o Hb.
  assert (Hlt : (b < length s)%nat) by (apply nth_error_Some; congruence).
  split.
  - rewrite nth_error_app1 by exact Hlt. exact Hb.
  - rewrite !nth_error_app1 by (rewrite ?length_app; lia). exact Hb.
Qed.

Lemma analysis_deterministic_stateless_witness :
  exists first s1 r,
    Stateful.perform_enhanced_pattern_analysis
      (lit "Drag-along right: ninety five per cent") 1
      [Stateful.ClauseList []; Stateful.StrList [lit "drag_along"]]
    = inr (first, s1) /\
    perform_enhanced_pattern_analysis
      (lit "Drag-along right: ninety five per cent") [lit "drag_along"]
    = Return r /\
    Stateful.view first s1 = Some r.
Proof.
  destruct (analysis_deterministic_stateless
              (lit "Drag-along right: ninety five per cent")
              [lit "drag_along"]
              [Stateful.ClauseList []; Stateful.StrList [lit "drag_along"]]
              1 eq_refl)
    as (first & s1 & _ & _ & r & H1 & _ & H3 & H4 & _).
  exists first, s1, r. auto.
Defined.

Lemma category_clauses_type text clause_type c :
  In c (category_clauses text clause_type) -> Clause.type c = clause_type.
Proof.
  unfold category_clauses. rewrite in_flat_map. intros (r & _ & Hc).
  unfold rule_clauses in Hc. rewrite in_map_iff in Hc.
  destruct Hc as (m & <- & _). reflexivity.
Qed.

Lemma filter_all {A} (f : A -> bool) (l : list A) :
  (forall x, In x l -> f x = true) -> filter f l = l.
Proof.
  induction l as [|a l IH]; cbn; intros H; [reflexivity|].
  rewrite (H a) by (left; reflexivity). f_equal. apply IH. intros x Hx.
  apply H. right. exact Hx.
Qed.

Lemma filter_none {A} (f : A -> bool) (l : list A) :
  (forall x, In x l -> f x = false) -> filter f l = [].
Proof.
  induction l as [|a l IH]; cbn; intros H; [reflexivity|].
  rewrite (H a) by (left; reflexivity). apply IH. intros x Hx.
  apply H. right. exact Hx.
Qed.

(** Among the accumulated entries, those of one category are that
    category's own entries, once per occurrence of its name. *)
Lemma filter_all_clauses text clause_type clause_types :
  filter (fun c => str_eqb (Clause.type c) clause_type)
         (all_clauses text clause_types)
  = concat (repeat (category_clauses text clause_type)
                   (count_occ str_eq_dec clause_types clause_type)).
Proof.
  induction clause_types as [|ct cts IH]; [reflexivity|].
  unfold all_clauses in *. cbn [flat_map count_occ].
  rewrite filter_app, IH.
  destruct (str_eq_dec ct clause_type) as [->|Hne].
  - cbn [repeat concat]. f_equal. apply filter_all. intros c Hc.
    apply str_eqb_eq. apply (category_clauses_type _ _ _ Hc).
  - rewrite filter_none; [reflexivity|]. intros c Hc.
    apply category_clauses_type in Hc.
    destruct (str_eqb (Clause.type c) clause_type) eqn:E; [|reflexivity].
    apply str_eqb_eq in E. congruence.
Qed.

Lemma all_clauses_repeat text clause_type (k : nat) :
  all_clauses text (repeat clause_type k)
  = concat (repeat (category_clauses text clause_type) k).
Proof.
  induction k as [|k IH]; [reflexivity|].
  cbn [repeat concat]. rewrite <- IH. reflexivity.
Qed.

(** C9. The requested names are walked as a sequence, with no
    deduplication. The entries of a category are one entry per match of each
    of its rules; among all the accumulated entries of a request, those of
    a category are that category's entries repeated as many times as its
    name occurs in the request. A request of one name k times accumulates k
    copies of the category's entries; the response holds the first 15 of
    them and counts them all. *)
Theorem repeated_category_repeats_matches
    (text : str) (clause_types : list str) (clause_type : str) :
  category_clauses text clause_type
  = flat_map
      (fun rule_ : rule =>
         map (clause_of text clause_type (snd (fst rule_)) (snd rule_))
             (rule_matches text rule_))
      (rules_of clause_type) /\
  (exists r,
     perform_enhanced_pattern_analysis text clause_types = Return r /\
     for_clause_types text clause_types []
     = Return (all_clauses text clause_types) /\
     Response.detected_clauses r = firstn 15 (all_clauses text clause_types) /\
     Response.total_found r = len (all_clauses text clause_types) /\
     filter (fun c => str_eqb (Clause.type c) clause_type)
            (all_clauses text clause_types)
     = concat (repeat (category_clauses text clause_type)
                      (count_occ str_eq_dec clause_types clause_type))) /\
  forall k : nat,
    exists rk,
      perform_enhanced_pattern_analysis text (repeat clause_type k)
      = Return rk /\
      for_clause_types text (repeat clause_type k) []
      = Return (concat (repeat (category_clauses text clause_type) k)) /\
      Response.detected_clauses rk
      = firstn 15 (concat (repeat (category_clauses text clause_type) k)) /\
      Response.total_found rk
      = Z.of_nat k * len (category_clauses text clause_type).
Proof.
  split; [reflexivity|]. split.
  - eexists. split; [apply analysis_eq|].
    split; [apply for_clause_types_eq|].
    split; [reflexivity|]. split; [reflexivity|].
    apply filter_all_clauses.
  - intros k. eexists. split; [apply analysis_eq|].
    split; [rewrite for_clause_types_eq, all_clauses_repeat; reflexivity|].
    cbn [Response.detected_clauses Response.total_found].
    rewrite all_clauses_repeat. split; [reflexivity|].
    induction k as [|k IH]; [reflexivity|].
    cbn [repeat concat]. rewrite len_app, IH. lia.
Qed.

(** ** Worked examples *)

(** Case is ignored, [.] also matches a newline, and [.*] runs to the last
    possible end. *)
Example finditer_ignorecase_dotall :
  Re.finditer (lit "a.b") (lit "A
B a.b ab")
  = Return [ {| Re.start := 0; Re.end_ := 3 |}; {| Re.start := 4; Re.end_ := 7 |} ].
Proof. reflexivity. Qed.

Example finditer_greedy :
  Re.finditer (lit "sale.*price") (lit "sale price; sale PRICE sale")
  = Return [ {| Re.start := 0; Re.end_ := 22 |} ].
Proof. reflexivity. Qed.

(** The four non-ASCII letters that match an ASCII letter when case is
    ignored: Kelvin sign, dotless i, long s, capital I with dot above. *)
Example finditer_unicode_equivalents :
  Re.finditer (lit "k.s") [0x212A; 0x131; 0x17F; 0x4B; 0x130; 0x53]%N
  = Return [ {| Re.start := 0; Re.end_ := 3 |}; {| Re.start := 3; Re.end_ := 6 |} ].
Proof. reflexivity. Qed.

Example strip_example : strip (lit "  a b 
 ") = lit "a b".
Proof. reflexivity. Qed.

Example slice_negative : slice (lit "contract") (-5) 100 = lit "tract".
Proof. reflexivity. Qed.

(** The drag-along scenario: one entry, at the offset of the first letter,
    with the surrounding blanks stripped from the context. *)
Example drag_along_scenario :
  perform_enhanced_pattern_analysis
    (lit "  Drag-Along RIGHT of ninety-five per cent  ") [lit "drag_along"]
  = Return
      {| Response.detected_clauses :=
           [ {| Clause.text := lit "Drag-Along RIGHT of ninety-five per cent";
                Clause.context := lit "Drag-Along RIGHT of ninety-five per cent";
                Clause.type := lit "drag_along";
                Clause.confidence := 0.95%float;
                Clause.risk_level := lit "high";
                Clause.position := 2 |} ];
         Response.analysis_method := lit "enhanced_pattern_matching";
         Response.success := true;
         Response.total_found := 1 |}.
Proof. vm_compute. reflexivity. Qed.

(** The sentence matches the first and the fourth governance rule; naming
    the category twice gives both entries twice, in request order and not
    in order of position. *)
Example governance_twice :
  summary (perform_enhanced_pattern_analysis governance_sentence
             [lit "governance"; lit "governance"])
  = Some ([(4, 87); (9, 82); (4, 87); (9, 82)], 4).
Proof. vm_compute. reflexivity. Qed.

(** More than 15 accumulated entries: 15 are returned, 16 are counted. *)
Example more_than_fifteen :
  option_map (fun x => (len (fst x), snd x))
    (summary (perform_enhanced_pattern_analysis governance_sentence
                (repeat (lit "governance") 8)))
  = Some (15, 16).
Proof. vm_compute. reflexivity. Qed.

(** ** File names: [allowed_file] *)

Lemma contains_char (c : N) (s : str) : contains [c] s = true <-> In c s.
Proof.
  induction s as [|b s IH]; cbn.
  - split; [discriminate | tauto].
  - rewrite andb_true_r, orb_true_iff, IH, N.eqb_eq. intuition congruence.
Qed.

Lemma rpartition_None (sep : N) (s : str) :
  rpartition sep s = None <-> ~ In sep s.
Proof.
  induction s as [|ch s IH]; cbn; [tauto|].
  destruct (rpartition sep s) as [[a b]|].
  - split; [discriminate|]. intros H. exfalso.
    assert (Hn : ~ In sep s) by tauto. apply IH in Hn. discriminate.
  - destruct (N.eqb_spec ch sep) as [->|Hne].
    + split; [discriminate | tauto].
    + split; [|reflexivity]. intros _ [H|H]; [congruence|].
      apply (proj1 IH); [reflexivity | exact H].
Qed.

Lemma rpartition_Some (sep : N) (s a b : str) :
  rpartition sep s = Some (a, b) <-> s = a ++ sep :: b /\ ~ In sep b.
Proof.
  revert a. induction s as [|ch s IH]; intros a; cbn.
  - split; [discriminate|]. intros [H _]. destruct a; discriminate.
  - destruct (rpartition sep s) as [[a' b']|] eqn:E.
    + split.
      * intros [= <- <-]. destruct (proj1 (IH a') eq_refl) as [-> Hb].
        split; [reflexivity | exact Hb].
      * intros [H Hb]. destruct a as [|c a]; cbn in H.
        -- injection H as -> ->. apply rpartition_None in Hb. congruence.
        -- injection H as -> ->.
           assert (Some (a', b') = Some (a, b)) as [= -> ->]
             by (apply IH; split; [reflexivity | exact Hb]).
           reflexivity.
    + pose proof (proj1 (rpartition_None sep s) E) as Hs.
      destruct (N.eqb_spec ch sep) as [->|Hne].
      * split.
        -- intros [= <- <-]. split; [reflexivity | exact Hs].
        -- intros [H Hb]. destruct a as [|c a]; cbn in H.
           ++ injection H as ->. reflexivity.
           ++ injection H as -> ->. exfalso. apply Hs.
              apply in_or_app. right. left. reflexivity.
      * split; [discriminate|]. intros [H Hb]. exfalso.
        destruct a as [|c a]; cbn in H; injection H as ? ?; [congruence|].
        subst. apply Hs. apply in_or_app. right. left. reflexivity.
Qed.

Lemma in_set_In (x : str) (set : list str) : in_set x set = true <-> In x set.
Proof.
  unfold in_set. rewrite existsb_exists. split.
  - intros (y & Hy & E). apply str_eqb_eq in E. congruence.
  - intros H. exists x. split; [exact H | apply str_eqb_eq; reflexivity].
Qed.

(** The test behind [allowed_file], on a name cut at its last dot. *)
Lemma allowed_file_at_last_dot (stem ext : str) :
  ~ In 0x2E%N ext ->
  allowed_file (stem ++ lit "." ++ ext)
  = Value (in_set (lower ext) ALLOWED_EXTENSIONS).
Proof.
  intros Hext. unfold allowed_file.
  assert (Hdot : contains (lit ".") (stem ++ lit "." ++ ext) = true).
  { apply (contains_char 0x2E). apply in_or_app. right. left. reflexivity. }
  rewrite Hdot. unfold rsplit_1.
  rewrite (proj2 (rpartition_Some 0x2E (stem ++ lit "." ++ ext) stem ext))
    by (split; [reflexivity | exact Hext]).
  reflexivity.
Qed.

(** X1. [allowed_file] never raises, although it indexes the result of
    [rsplit]: the index is guarded by the test for a dot. It answers true
    exactly for the names that end in a dot followed by a dot-free extension
    whose lower case is pdf, docx, doc or txt; nothing before that last dot
    is looked at. *)
Theorem allowed_file_decided_by_last_extension (filename : str) :
  exists allowed,
    allowed_file filename = Value allowed /\
    (allowed = true <->
     exists stem ext,
       filename = stem ++ lit "." ++ ext /\ ~ In 0x2E%N ext /\
       In (lower ext) ALLOWED_EXTENSIONS).
Proof.
  destruct (rpartition 0x2E filename) as [[stem ext]|] eqn:E.
  - apply rpartition_Some in E. destruct E as [-> Hext].
    exists (in_set (lower ext) ALLOWED_EXTENSIONS).
    split; [apply (allowed_file_at_last_dot stem ext Hext)|].
    rewrite in_set_In. split.
    + intros H. exists stem, ext. auto.
    + intros (stem' & ext' & Heq & Hext' & Hin).
      assert (Some (stem, ext) = Some (stem', ext')) as [= -> ->].
      { rewrite <- (proj2 (rpartition_Some 0x2E (stem ++ 0x2E%N :: ext) stem ext))
          by auto.
        apply rpartition_Some. split; [exact Heq | exact Hext']. }
      exact Hin.
  - apply rpartition_None in E. exists false. split.
    + unfold allowed_file.
      destruct (contains (lit ".") filename) eqn:C; [|reflexivity].
      apply (contains_char 0x2E) in C. contradiction.
    + split; [discriminate|]. intros (stem & ext & -> & _ & _).
      exfalso. apply E. apply in_or_app. right. left. reflexivity.
Qed.

Lemma allowed_file_returns (filename : str) :
  exists allowed, allowed_file filename = Value allowed.
Proof.
  unfold allowed_file. destruct (contains (lit ".") filename) eqn:C.
  - apply (contains_char 0x2E) in C. unfold rsplit_1.
    destruct (rpartition 0x2E filename) as [[a b]|] eqn:E.
    + eexists. reflexivity.
    + apply rpartition_None in E. contradiction.
  - eexists. reflexivity.
Qed.

(** ** Uploaded files: [file_security_check] *)

(** The type test of the method is the test of [allowed_file]. *)
Lemma file_security_check_unfold (f : FileStorage.t) :
  FileStorage.filename f <> [] ->
  file_security_check (Some f)
  = (type_ok <-- allowed_file (FileStorage.filename f) ;;
     if negb type_ok then Value ((false, lit "Invalid file type"), Some f)
     else if 16 * 1024 * 1024 <? len (FileStorage.content f)
     then Value ((false, lit "File too large"), Some (seek_start f))
     else if len (FileStorage.content f) <? 100
     then Value ((false, lit "File too small"), Some (seek_start f))
     else if existsb (fun pattern => contains pattern (FileStorage.filename f))
                     suspicious_patterns
     then Value ((false, lit "Invalid filename"), Some (seek_start f))
     else Value ((true, lit "File validation passed"), Some (seek_start f))).
Proof.
  intros Hname. unfold file_security_check.
  destruct (FileStorage.filename f) as [|c name] eqn:E; [congruence|].
  reflexivity.
Qed.

Lemma existsb_false_forall {A} (p : A -> bool) (l : list A) :
  existsb p l = false <-> forall x, In x l -> p x = false.
Proof.
  induction l as [|a l IH]; cbn; [tauto|].
  rewrite orb_false_iff, IH. split.
  - intros [Ha Hl] x [<-|Hx]; auto.
  - intros H. split; [apply H; left; reflexivity|]. intros x Hx. apply H.
    right. exact Hx.
Qed.

(** X2. The check never raises, and it passes a file exactly when the file
    is there with a non-empty name, [allowed_file] accepts the name, the
    stream holds between 100 bytes and 16 MiB, both included, and the name
    contains none of the ten suspicious patterns; the message is then
    "File validation passed". *)
Theorem file_security_check_passes_iff (file : option FileStorage.t) :
  exists ok message file',
    file_security_check file = Value ((ok, message), file') /\
    (ok = true <->
     exists f,
       file = Some f /\
       FileStorage.filename f <> [] /\
       allowed_file (FileStorage.filename f) = Value true /\
       100 <= len (FileStorage.content f) <= 16 * 1024 * 1024 /\
       forall pattern,
         In pattern suspicious_patterns ->
         contains pattern (FileStorage.filename f) = false) /\
    (ok = true -> message = lit "File validation passed").
Proof.
  destruct file as [f|].
  2:{ do 3 eexists. split; [reflexivity|]. split; [|discriminate].
      split; [discriminate|]. intros (f & H & _). discriminate. }
  destruct (str_eq_dec (FileStorage.filename f) []) as [En|Hne].
  { do 3 eexists. split; [unfold file_security_check; rewrite En; reflexivity|].
    split; [|discriminate]. split; [discriminate|].
    intros (f' & [= <-] & H & _). congruence. }
  rewrite (file_security_check_unfold f Hne).
  destruct (allowed_file_returns (FileStorage.filename f)) as [b Hb].
  rewrite Hb. cbn [and_then].
  destruct b; cbn [negb].
  2:{ do 3 eexists. split; [reflexivity|]. split; [|discriminate].
      split; [discriminate|]. intros (f' & [= <-] & _ & H & _). congruence. }
  destruct (Z.ltb_spec (16 * 1024 * 1024) (len (FileStorage.content f))).
  { do 3 eexists. split; [reflexivity|]. split; [|discriminate].
    split; [discriminate|]. intros (f' & [= <-] & _ & _ & H' & _). lia. }
  destruct (Z.ltb_spec (len (FileStorage.content f)) 100).
  { do 3 eexists. split; [reflexivity|]. split; [|discriminate].
    split; [discriminate|]. intros (f' & [= <-] & _ & _ & H' & _). lia. }
  destruct (existsb (fun pattern => contains pattern (FileStorage.filename f))
                    suspicious_patterns) eqn:Es.
  { do 3 eexists. split; [reflexivity|]. split; [|discriminate].
    split; [discriminate|]. intros (f' & [= <-] & _ & _ & _ & H').
    apply existsb_false_forall in H'. congruence. }
  do 3 eexists. split; [reflexivity|]. split; [|reflexivity].
  split; [|reflexivity]. intros _. exists f.
  rewrite existsb_false_forall in Es. repeat split; auto; lia.
Qed.

(** X3. A file that passes has a name [allowed_file] accepts, with no slash,
    no backslash, no colon and no two dots in a row; its stream is left at
    position 0, so that the next [read] gives every byte; name and bytes
    are those that came in. *)
Theorem passed_file_plain_name_and_rewound
    (f : FileStorage.t) (message : str) (file' : option FileStorage.t)
    (Hpass : file_security_check (Some f) = Value ((true, message), file')) :
  allowed_file (FileStorage.filename f) = Value true /\
  ~ In 0x2F%N (FileStorage.filename f) /\
  ~ In 0x5C%N (FileStorage.filename f) /\
  ~ In 0x3A%N (FileStorage.filename f) /\
  contains (lit "..") (FileStorage.filename f) = false /\
  exists f',
    file' = Some f' /\
    FileStorage.filename f' = FileStorage.filename f /\
    FileStorage.content f' = FileStorage.content f /\
    FileStorage.position f' = 0 /\
    fst (read f') = FileStorage.content f.
Proof.
  destruct (str_eq_dec (FileStorage.filename f) []) as [En|Hne].
  { unfold file_security_check in Hpass. rewrite En in Hpass. discriminate. }
  rewrite (file_security_check_unfold f Hne) in Hpass.
  destruct (allowed_file_returns (FileStorage.filename f)) as [b Hb].
  rewrite Hb in Hpass. cbn [and_then] in Hpass.
  destruct b; cbn [negb] in Hpass; [|discriminate].
  destruct (16 * 1024 * 1024 <? len (FileStorage.content f)); [discriminate|].
  destruct (len (FileStorage.content f) <? 100); [discriminate|].
  destruct (existsb (fun pattern => contains pattern (FileStorage.filename f))
                    suspicious_patterns) eqn:Es; [discriminate|].
  injection Hpass as _ <-.
  rewrite existsb_false_forall in Es.
  assert (Hchar : forall ch, In [ch] suspicious_patterns ->
                             ~ In ch (FileStorage.filename f)).
  { intros ch Hin Hc. apply contains_char in Hc.
    rewrite (Es _ Hin) in Hc. discriminate. }
  split; [exact Hb|].
  split; [apply Hchar; cbn; tauto|].
  split; [apply Hchar; cbn; tauto|].
  split; [apply Hchar; cbn; tauto|].
  split; [apply Es; cbn; tauto|].
  exists (seek_start f). repeat split.
Qed.

Lemma passed_file_plain_name_and_rewound_witness :
  allowed_file (lit "lease.PDF") = Value true /\
  ~ In 0x2F%N (lit "lease.PDF").
Proof.
  pose proof (passed_file_plain_name_and_rewound
                (FileStorage.mk (lit "lease.PDF") (repeat Byte.x25 100) 7)
                (lit "File validation passed")
                (Some (FileStorage.mk (lit "lease.PDF") (repeat Byte.x25 100) 0))
                eq_refl) as H.
  split; [exact (proj1 H) | exact (proj1 (proj2 H))].
Defined.

(** X4. Whatever the verdict, the check returns the file it was given with
    the same name and the same bytes. The stream is moved only once the type
    test has passed, and then it is left at position 0: for the verdicts "No
    file provided" and "Invalid file type" the position is untouched. *)
Theorem file_security_check_stream (f : FileStorage.t) :
  exists ok message f',
    file_security_check (Some f) = Value ((ok, message), Some f') /\
    FileStorage.filename f' = FileStorage.filename f /\
    FileStorage.content f' = FileStorage.content f /\
    (In message [lit "No file provided"; lit "Invalid file type"] /\ f' = f \/
     In message [lit "File too large"; lit "File too small";
                 lit "Invalid filename"; lit "File validation passed"] /\
     FileStorage.position f' = 0).
Proof.
  destruct (str_eq_dec (FileStorage.filename f) []) as [En|Hne].
  { do 3 eexists. split; [unfold file_security_check; rewrite En; reflexivity|].
    repeat split. left. split; [left; reflexivity | reflexivity]. }
  rewrite (file_security_check_unfold f Hne).
  destruct (allowed_file_returns (FileStorage.filename f)) as [b Hb].
  rewrite Hb. cbn [and_then].
  destruct b; cbn [negb].
  2:{ do 3 eexists. split; [reflexivity|]. repeat split.
      left. split; [right; left; reflexivity | reflexivity]. }
  destruct (16 * 1024 * 1024 <? len (FileStorage.content f)).
  { do 3 eexists. split; [reflexivity|]. repeat split. right. cbn. tauto. }
  destruct (len (FileStorage.content f) <? 100).
  { do 3 eexists. split; [reflexivity|]. repeat split. right. cbn. tauto. }
  destruct (existsb _ suspicious_patterns).
  { do 3 eexists. split; [reflexivity|]. repeat split. right. cbn. tauto. }
  do 3 eexists. split; [reflexivity|]. repeat split. right. cbn. tauto.
Qed.

(** ** The clause endpoint: [analyze_clauses] *)

(** X5. On a body that parses, the endpoint never answers 500: a missing or
    empty [document_text] is answered 400 whatever [clause_types] holds, and
    any other text 200 with the response of the analysis, whose entries are
    at most 15 and point inside the text that was sent; without
    [clause_types] that response is empty. A body that cannot be read is
    answered 500 with an empty [detected_clauses]. *)
Theorem analyze_clauses_answers (data : ClauseRequest.t) :
  let document_text := get (ClauseRequest.document_text data) [] in
  let clause_types := get (ClauseRequest.clause_types data) [] in
  exists results,
    perform_enhanced_pattern_analysis document_text clause_types
    = Return results /\
    analyze_clauses (Value data)
    = (if truthy document_text
       then (JsonResults results, 200)
       else (JsonError (lit "No document text provided"), 400)) /\
    Response.success results = true /\
    len (Response.detected_clauses results) <= 15 /\
    (forall c, In c (Response.detected_clauses results) ->
               0 <= Clause.position c < len document_text) /\
    (ClauseRequest.clause_types data = None ->
     Response.detected_clauses results = [] /\
     Response.total_found results = 0) /\
    forall e,
      analyze_clauses (Throw e)
      = (JsonErrorDetected (lit "Analysis failed") [], 500).
Proof.
  intros document_text clause_types.
  eexists. split; [apply analysis_eq|].
  split.
  { unfold analyze_clauses. cbn [and_then].
    fold document_text. fold clause_types.
    destruct (truthy document_text); cbn [negb]; [|reflexivity].
    rewrite analysis_eq. reflexivity. }
  cbn [Response.success Response.detected_clauses Response.total_found].
  split; [reflexivity|].
  split. { unfold len. rewrite length_firstn. lia. }
  split.
  { intros c Hc. apply in_firstn, clause_span in Hc.
    destruct Hc as (ct & r & p & m & i & n & _ & _ & _ & _ & -> & Hs & He & Hn & Hle & _).
    unfold clause_of. cbn [Clause.position]. unfold len. lia. }
  split; [|reflexivity].
  intros Hnone. unfold clause_types. rewrite Hnone. split; reflexivity.
Qed.

(** ** White space: [strip] and [split] *)

Lemma lstrip_suffix (s : str) :
  exists blank, s = blank ++ lstrip s /\ forallb isspace blank = true.
Proof.
  induction s as [|ch s (blank & IH & Hb)]; cbn [lstrip].
  - exists []. split; reflexivity.
  - destruct (isspace ch) eqn:E.
    + exists (ch :: blank). cbn. rewrite E, Hb. split; [f_equal; exact IH | reflexivity].
    + exists []. split; reflexivity.
Qed.

Lemma lstrip_head (s : str) (ch : N) (s' : str) :
  lstrip s = ch :: s' -> isspace ch = false.
Proof.
  induction s as [|c s IH]; cbn [lstrip]; [discriminate|].
  destruct (isspace c) eqn:E; [exact IH|]. intros [= <- _]. exact E.
Qed.


Lemma lstrip_fixed (s : str) :
  (forall ch s', s = ch :: s' -> isspace ch = false) -> lstrip s = s.
Proof.
  destruct s as [|c s]; [reflexivity|]. intros H. cbn.
  rewrite (H c s eq_refl). reflexivity.
Qed.

Lemma rstrip_snoc_space (s : str) (ch : N) :
  isspace ch = true -> rstrip (s ++ [ch]) = rstrip s.
Proof.
  intros H. unfold rstrip. rewrite rev_app_distr. cbn. rewrite H. reflexivity.
Qed.

Lemma strip_snoc_space (s : str) (ch : N) :
  isspace ch = true -> strip (s ++ [ch]) = strip s.
Proof. intros H. unfold strip. rewrite rstrip_snoc_space by exact H. reflexivity. Qed.

(** The last character of a stripped string, like its first, is not white
    space. *)
Lemma rstrip_last (s t : str) (ch : N) :
  rstrip s = t ++ [ch] -> isspace ch = false.
Proof.
  unfold rstrip. intros H. apply (f_equal (@rev N)) in H.
  rewrite rev_involutive, rev_app_distr in H. cbn in H.
  apply lstrip_head in H. exact H.
Qed.

Lemma strip_first (s : str) (ch : N) (s' : str) :
  strip s = ch :: s' -> isspace ch = false.
Proof. unfold strip. apply lstrip_head. Qed.

Lemma strip_last (s t : str) (ch : N) :
  strip s = t ++ [ch] -> isspace ch = false.
Proof.
  unfold strip. intros H.
  destruct (lstrip_suffix (rstrip s)) as (blank & Hs & _).
  rewrite H, app_assoc in Hs. apply rstrip_last in Hs. exact Hs.
Qed.

Lemma rstrip_fixed (s : str) :
  (forall t ch, s = t ++ [ch] -> isspace ch = false) -> rstrip s = s.
Proof.
  intros H. unfold rstrip. rewrite lstrip_fixed; [apply rev_involutive|].
  intros ch s' E. apply (H (rev s') ch).
  rewrite <- (rev_involutive s), E. reflexivity.
Qed.

Lemma strip_idempotent (s : str) : strip (strip s) = strip s.
Proof.
  unfold strip at 1. rewrite rstrip_fixed.
  - apply lstrip_fixed. intros ch s' E. apply (strip_first _ _ _ E).
  - intros t ch E. apply (strip_last _ _ _ E).
Qed.


(** ** The text extractors *)

Lemma append_lines_texts {part : Type} (text_of : part -> result str)
    (parts : list part) (texts : list str) :
  Forall2 (fun p t => text_of p = Value t) parts texts ->
  forall text,
    append_lines text_of parts text
    = Value (text ++ concat (map (fun t => t ++ [10%N]) texts)).
Proof.
  induction 1 as [|p t parts texts Hp _ IH]; intros text; cbn.
  - rewrite app_nil_r. reflexivity.
  - rewrite Hp. cbn [and_then]. rewrite IH, <- !app_assoc. reflexivity.
Qed.

(** The loop either reads every part or stops at one that raises. *)
Lemma append_lines_cases {part : Type} (text_of : part -> result str)
    (parts : list part) (text : str) :
  (exists texts,
     Forall2 (fun p t => text_of p = Value t) parts texts /\
     append_lines text_of parts text
     = Value (text ++ concat (map (fun t => t ++ [10%N]) texts))) \/
  (exists p e,
     In p parts /\ text_of p = Throw e /\
     append_lines text_of parts text = Throw e).
Proof.
  revert text. induction parts as [|p parts IH]; intros text.
  - left. exists []. split; [constructor|]. cbn. rewrite app_nil_r. reflexivity.
  - cbn [append_lines]. destruct (text_of p) as [t|e] eqn:Hp; cbn [and_then].
    + destruct (IH (text ++ t ++ [10%N])) as [(texts & HF & Heq)|(q & e & Hq & Hthrow & Heq)].
      * left. exists (t :: texts). split; [constructor; assumption|].
        rewrite Heq. cbn. rewrite <- !app_assoc. reflexivity.
      * right. exists q, e. split; [right; exact Hq|]. split; assumption.
    + right. exists p, e. split; [left; reflexivity|]. split; [exact Hp | reflexivity].
Qed.

Lemma lines_join (texts : list str) :
  texts <> [] ->
  concat (map (fun t => t ++ [10%N]) texts) = join [10%N] texts ++ [10%N].
Proof.
  induction texts as [|x [|y l] IH]; intros H; [congruence| |].
  - cbn. rewrite app_nil_r. reflexivity.
  - change (concat (map (fun t => t ++ [10%N]) (x :: y :: l)))
      with ((x ++ [10%N]) ++ concat (map (fun t => t ++ [10%N]) (y :: l))).
    rewrite IH by discriminate.
    change (join [10%N] (x :: y :: l)) with (x ++ [10%N] ++ join [10%N] (y :: l)).
    rewrite <- !app_assoc. reflexivity.
Qed.

Lemma strip_lines (texts : list str) :
  strip (concat (map (fun t => t ++ [10%N]) texts)) = strip (join [10%N] texts).
Proof.
  destruct texts as [|x l]; [reflexivity|].
  rewrite lines_join by discriminate. apply strip_snoc_space. reflexivity.
Qed.

(** X6. When the library reads the document and every page, respectively
    every paragraph, gives its text, the extractor returns those texts
    joined by single newlines and stripped: the newline appended after the
    last part never shows, and a document of one part yields that part's
    text stripped. *)
Theorem extractors_join_and_strip
    (page paragraph : Type)
    (PdfReader : list Byte.byte -> result (list page))
    (extract_text : page -> result str)
    (Document : list Byte.byte -> result (list paragraph))
    (paragraph_text : paragraph -> result str)
    (file_content : list Byte.byte)
    (pages : list page) (paragraphs : list paragraph)
    (page_texts paragraph_texts : list str)
    (Hpdf : PdfReader file_content = Value pages)
    (Hpages : Forall2 (fun p t => extract_text p = Value t) pages page_texts)
    (Hdocx : Document file_content = Value paragraphs)
    (Hparagraphs : Forall2 (fun p t => paragraph_text p = Value t)
                           paragraphs paragraph_texts) :
  extract_text_from_pdf PdfReader extract_text file_content
  = Some (strip (join [10%N] page_texts)) /\
  extract_text_from_docx Document paragraph_text file_content
  = Some (strip (join [10%N] paragraph_texts)).
Proof.
  unfold extract_text_from_pdf, extract_text_from_docx.
  rewrite Hpdf, Hdocx. cbn [and_then].
  rewrite (append_lines_texts _ _ _ Hpages), (append_lines_texts _ _ _ Hparagraphs).
  cbn [and_then app]. rewrite !strip_lines. split; reflexivity.
Qed.

Lemma extractors_join_and_strip_witness :
  extract_text_from_pdf (fun _ => Value [lit " Sample PDF text"; lit "page two "])
                        Value []
  = Some (lit "Sample PDF text
page two").
Proof.
  refine (proj1 (extractors_join_and_strip
                   str str
                   (fun _ => Value [lit " Sample PDF text"; lit "page two "])
                   Value (fun _ => Value [lit "Sample DOCX text"]) Value []
                   [lit " Sample PDF text"; lit "page two "]
                   [lit "Sample DOCX text"]
                   [lit " Sample PDF text"; lit "page two "]
                   [lit "Sample DOCX text"]
                   eq_refl _ eq_refl _)).
  - repeat constructor.
  - repeat constructor.
Defined.

(** X7. The extractors never raise. They return None exactly when the
    library fails on the document or on one of its parts; any text they
    return is stripped: it neither begins nor ends with white space and
    stripping it again changes nothing. *)
Theorem extract_text_from_pdf_none_or_stripped
    (page : Type)
    (PdfReader : list Byte.byte -> result (list page))
    (extract_text : page -> result str)
    (file_content : list Byte.byte) :
  (extract_text_from_pdf PdfReader extract_text file_content = None <->
   (exists e, PdfReader file_content = Throw e) \/
   (exists pages p e,
      PdfReader file_content = Value pages /\ In p pages /\
      extract_text p = Throw e)) /\
  forall text,
    extract_text_from_pdf PdfReader extract_text file_content = Some text ->
    strip text = text /\
    (forall ch rest, text = ch :: rest -> isspace ch = false) /\
    (forall rest ch, text = rest ++ [ch] -> isspace ch = false).
Proof.
  unfold extract_text_from_pdf.
  destruct (PdfReader file_content) as [pages|e0] eqn:Hr; cbn [and_then].
  2:{ split; [|discriminate]. split; [intros _; left; eexists; reflexivity | reflexivity]. }
  destruct (append_lines_cases extract_text pages [])
    as [(texts & HF & Heq)|(p & e & Hp & Hthrow & Heq)]; rewrite Heq; cbn [and_then].
  - split.
    + split; [discriminate|]. intros [[e He]|(pages' & p & e & [= <-] & Hp & Hthrow)];
        [discriminate|].
      exfalso. clear Heq Hr. revert Hp.
      induction HF as [|q t qs ts Hq _ IH]; [contradiction|].
      intros [->|Hp]; [congruence | auto].
    + intros text [= <-]. split; [apply strip_idempotent|]. split.
      * intros ch rest E. apply (strip_first _ _ _ E).
      * intros rest ch E. apply (strip_last _ _ _ E).
  - split; [|discriminate]. split; [|reflexivity].
    intros _. right. exists pages, p, e. auto.
Qed.

(** ** The explanation: [explain_contract] *)

Lemma slice_4000 {A} (x : list A) : slice x 0 4000 = firstn 4000 x.
Proof. exact (slice_prefix x 4000). Qed.

(** X8. Only the first 4000 characters of the document reach the API:
    whatever the API does, explaining a document and explaining its first
    4000 characters are the same call with the same answer. The prompt is
    the fixed head, those characters and the fixed tail, 4590 characters at
    most. *)
Theorem explain_contract_sends_first_4000
    (post : str -> result ApiResponse.t) (file_content : str) :
  prompt_of file_content = prompt_head ++ firstn 4000 file_content ++ prompt_tail /\
  prompt_of file_content = prompt_of (slice file_content 0 4000) /\
  len (prompt_of file_content) <= 4590 /\
  explain_contract post file_content
  = explain_contract post (slice file_content 0 4000).
Proof.
  assert (Hidem : prompt_of file_content = prompt_of (slice file_content 0 4000)).
  { unfold prompt_of. rewrite !slice_4000, firstn_firstn, Nat.min_id.
    reflexivity. }
  split; [unfold prompt_of; rewrite slice_4000; reflexivity|].
  split; [exact Hidem|]. split.
  - unfold prompt_of. rewrite slice_4000, !len_app.
    change (len prompt_head) with 71. change (len prompt_tail) with 519.
    unfold len. rewrite length_firstn. lia.
  - unfold explain_contract. rewrite <- Hidem. reflexivity.
Qed.

(** X9. [explain_contract] never raises. It returns the content of the
    answer exactly when the request goes through, the status is 200 and the
    content can be read from the answer; any other status, an answer that
    cannot be read and a failed request all give None. *)
Theorem explain_contract_answer_iff
    (post : str -> result ApiResponse.t) (file_content answer : str) :
  explain_contract post file_content = Some answer <->
  exists response,
    post (prompt_of file_content) = Value response /\
    ApiResponse.status_code response = 200 /\
    ApiResponse.content response = Value answer.
Proof.
  unfold explain_contract.
  destruct (post (prompt_of file_content)) as [response|e]; cbn [and_then].
  - destruct (Z.eqb_spec (ApiResponse.status_code response) 200) as [Hs|Hs].
    + destruct (ApiResponse.content response) as [content|e] eqn:Hc;
        cbn [and_then].
      * split.
        -- intros [= ->]. exists response. auto.
        -- intros (r & [= <-] & _ & Hc'). congruence.
      * split; [discriminate|]. intros (r & [= <-] & _ & Hc'). congruence.
    + split; [discriminate|]. intros (r & [= <-] & Hs' & _). contradiction.
  - split; [discriminate|]. intros (r & H & _). discriminate.
Qed.

(** ** The upload endpoint: [analyze_contract] *)




Section AnalyzeContractFacts.
Variable secure_filename : str -> str.
Variable extract_pdf : list Byte.byte -> result (option str).
Variable extract_docx : list Byte.byte -> result (option str).
Variable decode_utf8 : list Byte.byte -> result str.
Variable explain : str -> result (option str).

(** What the part inside [try] can return. *)
Lemma analyze_contract_try_value (file : FileStorage.t)
    (body : json_body) (status : Z) :
  analyze_contract_try secure_filename extract_pdf extract_docx decode_utf8
                       explain file = Value (body, status) ->
  (exists text analysis,
     status = 200 /\
     body = JsonAnalysis true (secure_filename (FileStorage.filename file))
                         analysis (len (split text)) /\
     explain text = Value (Some analysis) /\
     analysis <> [] /\ 50 <= len (strip text)) \/
  (exists message, body = JsonError message /\ (status = 400 \/ status = 500)).
Proof.
  unfold analyze_contract_try. cbn [read].
  destruct (getitem _ 1) as [ext|e]; cbn [and_then]; [|discriminate].
  match goal with
  | |- and_then ?c _ = _ -> _ => destruct c as [text|e]
  end; cbn [and_then]; [|discriminate].
  destruct (insufficient text) eqn:Hins.
  { intros [= <- <-]. right. eexists. split; [reflexivity | left; reflexivity]. }
  destruct text as [t|]; [|discriminate]. cbn [get].
  destruct (explain t) as [analysis|e] eqn:He; cbn [and_then]; [|discriminate].
  destruct (no_analysis analysis) eqn:Hno.
  { intros [= <- <-]. right. eexists. split; [reflexivity | right; reflexivity]. }
  destruct analysis as [a|]; [|discriminate]. cbn [get].
  intros [= <- <-]. left. exists t, a.
  cbn in Hins, Hno. apply orb_false_iff in Hins. destruct Hins as [_ Hlen].
  repeat split; auto.
  - destruct a; [discriminate | discriminate].
  - apply Z.ltb_ge, Hlen.
Qed.

(** X10. An exception raised while [request.files] is read, as for a body
    over [MAX_CONTENT_LENGTH], leaves the handler as it is: it is not
    caught. Once the files are read, the handler lets no exception out and
    answers with one of the statuses 200, 400 and 500, whatever its
    collaborators return or raise. The status is 200 exactly when the body
    is the analysis; every other body is an error message. A request without
    a file, and a file whose name [allowed_file] rejects, are answered 400
    before the file is read or any collaborator is called. *)
Theorem analyze_contract_answers (files : result (option FileStorage.t)) :
  match files with
  | Throw e =>
      analyze_contract secure_filename extract_pdf extract_docx decode_utf8
                       explain files = Throw e
  | Value received =>
      exists body status,
        analyze_contract secure_filename extract_pdf extract_docx decode_utf8
                         explain files = Value (body, status) /\
        In status [200; 400; 500] /\
        (status = 200 <->
         exists filename analysis word_count,
           body = JsonAnalysis true filename analysis word_count) /\
        (status <> 200 -> exists message, body = JsonError message) /\
        (received = None ->
         body = JsonError (lit "No file uploaded") /\ status = 400) /\
        (forall file,
           received = Some file ->
           allowed_file (FileStorage.filename file) = Value false ->
           body = JsonError (lit "File type not allowed") /\ status = 400)
  end.
Proof.
  destruct files as [[file|]|e]; cbn [analyze_contract and_then];
    [| |reflexivity].
  2:{ do 2 eexists. split; [reflexivity|]. cbn.
      repeat split; try tauto; try discriminate; try lia.
      - intros (fn & a & w & H). discriminate.
      - intros _. eexists. reflexivity. }
  destruct (allowed_file_returns (FileStorage.filename file)) as [b Hb].
  rewrite Hb. cbn [and_then]. destruct b; cbn [negb].
  2:{ do 2 eexists. split; [reflexivity|]. cbn.
      repeat split; try tauto; try discriminate; try lia.
      - intros (fn & a & w & H). discriminate.
      - intros _. eexists. reflexivity. }
  destruct (analyze_contract_try _ _ _ _ _ file) as [[body status]|e] eqn:Ht.
  - exists body, status. split; [reflexivity|].
    apply analyze_contract_try_value in Ht.
    destruct Ht as [(text & a & -> & -> & _)|(message & -> & [->| ->])].
    + cbn. repeat split; try tauto; try discriminate; try congruence.
      intros _. do 3 eexists. reflexivity.
    + cbn. repeat split; try tauto; try discriminate; try congruence; try lia.
      * intros (fn & a & w & H). discriminate.
      * intros _. eexists. reflexivity.
    + cbn. repeat split; try tauto; try discriminate; try congruence; try lia.
      * intros (fn & a & w & H). discriminate.
      * intros _. eexists. reflexivity.
  - do 2 eexists. split; [reflexivity|]. unfold processing_error. cbn.
    repeat split; try tauto; try discriminate; try congruence; try lia.
    + intros (fn & a & w & H). discriminate.
    + intros _. eexists. reflexivity.
Qed.

End AnalyzeContractFacts.


(** ** The branch for PDF files *)

Lemma lower_app (a b : str) : lower (a ++ b) = lower a ++ lower b.
Proof. unfold lower. apply flat_map_app. Qed.

Lemma lower_char_no_dot (ch : N) :
  ch <> 0x2E%N -> ~ In 0x2E%N (lower_char ch).
Proof.
  intros Hch. unfold lower_char.
  destruct (N.leb_spec 0x41 ch); destruct (N.leb_spec ch 0x5A); cbn [andb];
    try (cbn; intros [H'|[]]; lia).
  all: destruct (N.eqb_spec ch 0x130); [cbn; intros [H'|[H'|[]]]; discriminate|].
  all: destruct (N.eqb_spec ch 0x212A); [cbn; intros [H'|[]]; discriminate|].
  all: cbn; intros [H'|[]]; congruence.
Qed.

Lemma lower_no_dot (s : str) : ~ In 0x2E%N s -> ~ In 0x2E%N (lower s).
Proof.
  induction s as [|ch s IH]; cbn; [tauto|]. intros H Hin.
  apply in_app_or in Hin. destruct Hin as [Hin|Hin].
  - apply (lower_char_no_dot ch); [intros E; apply H; left; congruence | exact Hin].
  - apply IH; [tauto | exact Hin].
Qed.

(** On a name cut at its last dot, "the lower-cased name ends in .pdf" and
    "the lower-cased extension is pdf" say the same. *)
Lemma endswith_pdf_at_last_dot (stem ext : str) :
  ~ In 0x2E%N ext ->
  endswith (lit ".pdf") (lower (stem ++ 0x2E%N :: ext))
  = str_eqb (lower ext) (lit "pdf").
Proof.
  intros Hext. apply lower_no_dot in Hext.
  unfold endswith.
  change (0x2E%N :: ext) with ([0x2E%N] ++ ext).
  rewrite !lower_app, !rev_app_distr. change (rev (lower [0x2E%N])) with [0x2E%N].
  rewrite <- app_assoc. cbn [app].
  assert (Hrev : ~ In 0x2E%N (rev (lower ext))).
  { intros H. apply Hext, in_rev, H. }
  destruct (str_eqb (lower ext) (lit "pdf")) eqn:E.
  - apply str_eqb_eq in E. rewrite E. reflexivity.
  - destruct (startswith _ _) eqn:S; [|reflexivity]. exfalso.
    assert (Hpdf : rev (lower ext) = rev (lit "pdf")).
    { change (rev (lit ".pdf")) with [0x66; 0x64; 0x70; 0x2E]%N in S.
      change (rev (lit "pdf")) with [0x66; 0x64; 0x70]%N.
      destruct (rev (lower ext)) as [|a [|b [|c [|d R]]]];
        cbn [startswith app] in S;
        repeat match type of S with
               | (_ && _)%bool = true =>
                   let S1 := fresh "S" in
                   apply andb_prop in S; destruct S as [S1 S]
               end;
        repeat match goal with
               | H : (?x =? ?y)%N = true |- _ => apply N.eqb_eq in H
               end;
        try discriminate.
      - subst. reflexivity.
      - exfalso. apply Hrev. subst d. cbn. tauto. }
    apply (f_equal (@rev N)) in Hpdf. rewrite !rev_involutive in Hpdf.
    apply str_eqb_eq in Hpdf. congruence.
Qed.

(** X12. In the handler, the second test of the PDF branch, meant for files
    with a wrong extension, never decides anything: for a secured name with
    an extension, its lower case ends in .pdf exactly when the lower-cased
    extension is pdf, which is the first test. *)
Theorem pdf_branch_tests_coincide (filename ext : str)
    (Hext : getitem (rsplit_1 filename 0x2E%N) 1 = Value ext) :
  endswith (lit ".pdf") (lower filename) = str_eqb (lower ext) (lit "pdf") /\
  (str_eqb (lower ext) (lit "pdf") || endswith (lit ".pdf") (lower filename))
  = str_eqb (lower ext) (lit "pdf").
Proof.
  unfold rsplit_1 in Hext.
  destruct (rpartition 0x2E filename) as [[stem ext']|] eqn:E; [|discriminate].
  cbn in Hext. injection Hext as ->.
  apply rpartition_Some in E. destruct E as [-> Hdot].
  rewrite (endswith_pdf_at_last_dot stem ext Hdot).
  split; [reflexivity | apply orb_diag].
Qed.

Lemma pdf_branch_tests_coincide_witness :
  endswith (lit ".pdf") (lower (lit "Lease.v2.PDF"))
  = str_eqb (lower (lit "PDF")) (lit "pdf").
Proof.
  exact (proj1 (pdf_branch_tests_coincide (lit "Lease.v2.PDF") (lit "PDF")
                                          eq_refl)).
Defined.

(** X13. A PDF that the library cannot open, or that has no page, is
    answered 400 "Could not extract enough text", not 500, and
    [explain_contract] has no say in it. *)
Theorem unreadable_pdf_is_bad_request
    (page : Type)
    (PdfReader : list Byte.byte -> result (list page))
    (extract_text : page -> result str)
    (secure_filename : str -> str)
    (extract_docx : list Byte.byte -> result (option str))
    (decode_utf8 : list Byte.byte -> result str)
    (explain : str -> result (option str))
    (file : FileStorage.t) (ext : str)
    (Hallowed : allowed_file (FileStorage.filename file) = Value true)
    (Hext : getitem (rsplit_1 (secure_filename (FileStorage.filename file))
                              0x2E%N) 1 = Value ext)
    (Hpdf : lower ext = lit "pdf")
    (Hunreadable : (exists e, PdfReader (fst (read file)) = Throw e) \/
                   PdfReader (fst (read file)) = Value []) :
  analyze_contract secure_filename
    (fun file_content =>
       Value (extract_text_from_pdf PdfReader extract_text file_content))
    extract_docx decode_utf8 explain (Value (Some file))
  = Value (JsonError (lit "Could not extract enough text from the document. Please ensure the file contains readable text."), 400).
Proof.
  cbn [analyze_contract and_then]. rewrite Hallowed. cbn [and_then negb].
  unfold analyze_contract_try. cbn [read fst] in *.
  rewrite Hext. cbn [and_then]. rewrite Hpdf.
  change (str_eqb (lit "pdf") (lit "pdf")) with true. cbn [orb and_then].
  unfold extract_text_from_pdf.
  destruct Hunreadable as [[e ->]| ->]; reflexivity.
Qed.

Lemma unreadable_pdf_is_bad_request_witness :
  analyze_contract (fun name => name)
    (fun file_content =>
       Value (extract_text_from_pdf (page := unit)
                (fun _ => Throw External) (fun _ => Value []) file_content))
    (fun _ => Value None) (fun _ => Throw External) (fun _ => Value None)
    (Value (Some (FileStorage.mk (lit "scan.pdf") [] 0)))
  = Value (JsonError (lit "Could not extract enough text from the document. Please ensure the file contains readable text."), 400).
Proof.
  refine (unreadable_pdf_is_bad_request
            unit (fun _ => Throw External) (fun _ => Value [])
            (fun name => name) (fun _ => Value None) (fun _ => Throw External)
            (fun _ => Value None)
            (FileStorage.mk (lit "scan.pdf") [] 0) (lit "pdf")
            eq_refl eq_refl eq_refl _).
  left. exists External. reflexivity.
Defined.

(** ** More on the analysis *)

(** Every rule of the table carries one of four confidences, all between 0
    and 1, and the risk level of its category. *)
Lemma patterns_labels :
  Forall
    (fun kv : str * list rule =>
       Forall
         (fun r : rule =>
            In (snd (fst r)) [0.95; 0.9; 0.85; 0.8]%float /\
            PrimFloat.leb 0 (snd (fst r)) = true /\
            PrimFloat.leb (snd (fst r)) 1 = true /\
            (In (fst kv) [lit "governance"; lit "drag_along"] /\
             snd r = lit "high" \/
             fst kv = lit "tag_along" /\ snd r = lit "low" \/
             In (fst kv) [lit "priority_allocation"; lit "non_compete"] /\
             snd r = lit "medium"))
         (snd kv))
    patterns.
Proof.
  unfold patterns.
  repeat (apply Forall_cons || apply Forall_nil);
    cbn [fst snd];
    (split; [cbn; tauto|]); (split; [reflexivity|]); (split; [reflexivity|]);
    cbn; tauto.
Qed.

(** X14. Every returned entry is labelled from the table: its type is one
    of the requested names and one of the five keys, its confidence and
    risk level are those of a rule of that category; the confidence is one
    of 0.95, 0.9, 0.85, 0.8, hence within 0 and 1, and the risk level is
    high for governance and drag_along, low for tag_along and medium for
    priority_allocation and non_compete. *)
Theorem returned_labels_from_table (text : str) (clause_types : list str) :
  exists r,
    perform_enhanced_pattern_analysis text clause_types = Return r /\
    forall c, In c (Response.detected_clauses r) ->
      In (Clause.type c) clause_types /\
      In (Clause.type c) (map fst patterns) /\
      (exists rule_,
         In rule_ (rules_of (Clause.type c)) /\
         Clause.confidence c = snd (fst rule_) /\
         Clause.risk_level c = snd rule_) /\
      In (Clause.confidence c) [0.95; 0.9; 0.85; 0.8]%float /\
      PrimFloat.leb 0 (Clause.confidence c) = true /\
      PrimFloat.leb (Clause.confidence c) 1 = true /\
      (In (Clause.type c) [lit "governance"; lit "drag_along"] /\
       Clause.risk_level c = lit "high" \/
       Clause.type c = lit "tag_along" /\ Clause.risk_level c = lit "low" \/
       In (Clause.type c) [lit "priority_allocation"; lit "non_compete"] /\
       Clause.risk_level c = lit "medium").
Proof.
  eexists. split; [apply analysis_eq|].
  cbn [Response.detected_clauses]. intros c Hc.
  apply in_firstn, clause_span in Hc.
  destruct Hc as (ct & r & p & m & i & n & Hct & Hr & _ & _ & -> & _).
  unfold clause_of.
  cbn [Clause.type Clause.confidence Clause.risk_level].
  unfold rules_of in Hr.
  destruct (dict_get patterns ct) as [rules|] eqn:E; [|contradiction].
  apply dict_get_In in E.
  pose proof patterns_labels as HL. rewrite Forall_forall in HL.
  specialize (HL _ E). cbn [fst snd] in HL. rewrite Forall_forall in HL.
  destruct (HL _ Hr) as (H1 & H2 & H3 & H4).
  split; [exact Hct|].
  split; [apply in_map_iff; exists (ct, rules); auto|].
  split.
  { exists r. unfold rules_of.
    destruct (dict_get patterns ct) as [rules'|] eqn:E'.
    - split; [|auto]. 
      assert (Hsame : dict_get patterns ct = Some rules).
      { clear - E. unfold patterns in *. cbn in E.
        repeat (destruct E as [E|E]; [injection E as <- <-; reflexivity|]).
        contradiction. }
      rewrite Hsame in E'. injection E' as <-. exact Hr.
    - exfalso. clear - E E'. unfold patterns in *. cbn in E.
      repeat (destruct E as [E|E]; [injection E as <- <-; discriminate E'|]).
      contradiction. }
  auto.
Qed.

(** X15. Requests compose: the entries accumulated for a request made of
    two parts are those of the first part followed by those of the second.
    So [total_found] adds up, and the entries returned for the first part
    alone open the list returned for the whole. *)
Theorem requests_compose (text : str) (first second : list str) :
  exists r1 r2 r acc1 acc2,
    perform_enhanced_pattern_analysis text first = Return r1 /\
    perform_enhanced_pattern_analysis text second = Return r2 /\
    perform_enhanced_pattern_analysis text (first ++ second) = Return r /\
    for_clause_types text first [] = Return acc1 /\
    for_clause_types text second [] = Return acc2 /\
    for_clause_types text (first ++ second) [] = Return (acc1 ++ acc2) /\
    Response.total_found r
    = Response.total_found r1 + Response.total_found r2 /\
    exists rest,
      Response.detected_clauses r = Response.detected_clauses r1 ++ rest /\
      rest = firstn (15 - length acc1) acc2.
Proof.
  do 3 eexists. exists (all_clauses text first), (all_clauses text second).
  split; [apply analysis_eq|]. split; [apply analysis_eq|].
  split; [apply analysis_eq|].
  split; [apply for_clause_types_eq|]. split; [apply for_clause_types_eq|].
  split; [rewrite for_clause_types_eq, all_clauses_app; reflexivity|].
  cbn [Response.total_found Response.detected_clauses].
  rewrite all_clauses_app. split; [apply len_app|].
  eexists. split; [apply firstn_app | reflexivity].
Qed.

(** ** The context holds the matched text *)

Lemma isspace_range (ch : N) :
  isspace ch = true ->
  (9 <= ch <= 13 \/ 28 <= ch <= 32 \/ ch = 0x85 \/ ch = 0xA0 \/ ch = 0x1680 \/
   0x2000 <= ch <= 0x200A \/ ch = 0x2028 \/ ch = 0x2029 \/ ch = 0x202F \/
   ch = 0x205F \/ ch = 0x3000)%N.
Proof.
  unfold isspace. intros H.
  repeat match type of H with
         | (_ || _)%bool = true =>
             apply orb_prop in H; destruct H as [H|H]
         end;
    repeat match goal with
           | H : (_ && _)%bool = true |- _ =>
               apply andb_prop in H; destruct H
           | H : (_ <=? _)%N = true |- _ => apply N.leb_le in H
           | H : (_ =? _)%N = true |- _ => apply N.eqb_eq in H
           end;
    lia.
Qed.

(** A character that a literal of the table's alphabet matches is no white
    space, as soon as the literal itself is none. *)
Lemma literal_ignore_not_space (av ch : N) :
  isspace av = false -> Re.literal_ignore av ch = true -> isspace ch = false.
Proof.
  intros Hav H. destruct (isspace ch) eqn:Hsp; [|reflexivity]. exfalso.
  pose proof (isspace_range ch Hsp) as Hs.
  unfold Re.literal_ignore in H. destruct (Re.iscased av) eqn:C.
  - assert (Hlo : (0x61 <= Re.sre_lower_unicode av <= 0x7A)%N).
    { unfold Re.iscased in C. unfold Re.sre_lower_unicode.
      destruct (N.leb_spec 0x41 av); destruct (N.leb_spec av 0x5A);
        destruct (N.leb_spec 0x61 av); destruct (N.leb_spec av 0x7A);
        cbn in C |- *; try discriminate; try lia.
      all: destruct (N.eqb_spec av 0x130); [lia|].
      all: destruct (N.eqb_spec av 0x212A); lia. }
    assert (Hx : (0x61 <= Re.sre_lower_unicode ch <= 0x7A)%N \/
                 Re.sre_lower_unicode ch = 0x131%N \/
                 Re.sre_lower_unicode ch = 0x17F%N).
    { cbn [existsb] in H. apply orb_prop in H. destruct H as [H|H].
      - apply N.eqb_eq in H. left. lia.
      - unfold Re.fixes in H.
        destruct (Re.sre_lower_unicode av =? 0x69)%N;
          [cbn in H; rewrite orb_false_r in H; apply N.eqb_eq in H; tauto|].
        destruct (Re.sre_lower_unicode av =? 0x73)%N;
          [cbn in H; rewrite orb_false_r in H; apply N.eqb_eq in H; tauto|].
        discriminate. }
    unfold Re.sre_lower_unicode in Hx.
    destruct (N.leb_spec 0x41 ch); destruct (N.leb_spec ch 0x5A);
      cbn [andb] in Hx; try lia.
    all: destruct (N.eqb_spec ch 0x130); [lia|].
    all: destruct (N.eqb_spec ch 0x212A); lia.
  - apply N.eqb_eq in H. subst ch. congruence.
Qed.

Lemma sre_match_first (av : N) (p : Re.pattern) (s : str) (n : nat) :
  Re.sre_match (Re.LITERAL av :: p) s = Some n ->
  exists ch s', s = ch :: s' /\ Re.literal_ignore av ch = true.
Proof.
  destruct s as [|ch s']; cbn; [discriminate|].
  destruct (Re.literal_ignore av ch) eqn:E; [|discriminate].
  intros _. exists ch, s'. auto.
Qed.

(** A pattern that ends in a literal ends its match on a character that
    literal matches. *)
Lemma sre_match_last (av : N) (p : Re.pattern) :
  forall (s : str) (n : nat),
    Re.sre_match (p ++ [Re.LITERAL av]) s = Some n ->
    exists (k : nat) ch,
      n = S k /\ nth_error s k = Some ch /\ Re.literal_ignore av ch = true.
Proof.
  induction p as [|[a| |] p IH]; intros s n H.
  - destruct s as [|ch s']; cbn in H; [discriminate|].
    destruct (Re.literal_ignore av ch) eqn:E; [|discriminate].
    injection H as <-. exists 0%nat, ch. auto.
  - destruct s as [|c s']; cbn in H; [discriminate|].
    destruct (Re.literal_ignore a c); [|discriminate].
    destruct (Re.sre_match (p ++ [Re.LITERAL av]) s') as [m|] eqn:E;
      [|discriminate].
    injection H as <-. destruct (IH _ _ E) as (k & ch & -> & Hk & Hl).
    exists (S k), ch. auto.
  - destruct s as [|c s']; cbn in H; [discriminate|].
    destruct (Re.sre_match (p ++ [Re.LITERAL av]) s') as [m|] eqn:E;
      [|discriminate].
    injection H as <-. destruct (IH _ _ E) as (k & ch & -> & Hk & Hl).
    exists (S k), ch. auto.
  - change ((Re.MAX_REPEAT_ANY :: p) ++ [Re.LITERAL av])
      with (Re.MAX_REPEAT_ANY :: (p ++ [Re.LITERAL av])) in H.
    rewrite sre_match_repeat in H.
    revert n H. induction s as [|c s IHs]; intros n H; cbn [Re.repeat_any] in H.
    + apply IH, H.
    + destruct (Re.repeat_any (p ++ [Re.LITERAL av]) s) as [m|] eqn:E.
      * injection H as <-. destruct (IHs _ eq_refl) as (k & ch & -> & Hk & Hl).
        exists (S k), ch. auto.
      * apply IH, H.
Qed.

(** Every pattern of the table begins and ends with a literal that is no
    white space. *)
Lemma patterns_edges :
  forallb
    (fun kv : str * list rule =>
       forallb
         (fun r : rule =>
            match Re.sre_parse (fst (fst r)) with
            | Some p =>
                match p, rev p with
                | Re.LITERAL a :: _, Re.LITERAL b :: _ =>
                    negb (isspace a) && negb (isspace b)
                | _, _ => false
                end
            | None => false
            end)
         (snd kv))
    patterns = true.
Proof. vm_compute. reflexivity. Qed.

Lemma lstrip_app (a x : str) (ch : N) (x' : str) :
  x = ch :: x' -> isspace ch = false -> lstrip (a ++ x) = lstrip a ++ x.
Proof.
  intros -> Hch. induction a as [|c a IH]; cbn.
  - rewrite Hch. reflexivity.
  - destruct (isspace c); [exact IH | reflexivity].
Qed.

Lemma rstrip_app (y b : str) (y' : str) (ch : N) :
  y = y' ++ [ch] -> isspace ch = false -> rstrip (y ++ b) = y ++ rstrip b.
Proof.
  intros -> Hch. unfold rstrip. rewrite rev_app_distr.
  rewrite (lstrip_app (rev b) (rev (y' ++ [ch])) ch (rev y'));
    [|rewrite rev_app_distr; reflexivity | exact Hch].
  rewrite rev_app_distr, rev_involutive. reflexivity.
Qed.

Lemma length_lstrip (s : str) : (length (lstrip s) <= length s)%nat.
Proof.
  destruct (lstrip_suffix s) as (blank & H & _).
  rewrite H at 2. rewrite length_app. lia.
Qed.

Lemma length_rstrip (s : str) : (length (rstrip s) <= length s)%nat.
Proof.
  unfold rstrip. rewrite length_rev.
  pose proof (length_lstrip (rev s)) as H. rewrite length_rev in H. exact H.
Qed.

(** The window around a text that begins and ends with a character that is
    no white space, stripped: the text keeps its place. *)
Lemma strip_around (a m b m1 m2 : str) (c1 c2 : N) :
  m = c1 :: m1 -> m = m2 ++ [c2] ->
  isspace c1 = false -> isspace c2 = false ->
  strip (a ++ m ++ b) = lstrip a ++ m ++ rstrip b.
Proof.
  intros H1 H2 Hc1 Hc2. unfold strip.
  rewrite app_assoc.
  rewrite (rstrip_app (a ++ m) b (a ++ m2) c2);
    [|rewrite H2 at 1; rewrite app_assoc; reflexivity | exact Hc2].
  rewrite <- app_assoc.
  apply (lstrip_app a (m ++ rstrip b) c1 (m1 ++ rstrip b)); [|exact Hc1].
  rewrite H1 at 1. reflexivity.
Qed.

Lemma list_cut {A} (l : list A) (k : nat) :
  (k <= length l)%nat -> exists x y, l = x ++ y /\ length x = k.
Proof.
  intros H. exists (firstn k l), (skipn k l). split.
  - symmetry. apply firstn_skipn.
  - rewrite length_firstn. lia.
Qed.

Lemma slice_middle {A} (x y z : list A) :
  slice (x ++ y ++ z) (len x) (len x + len y) = y.
Proof.
  unfold len. rewrite <- Nat2Z.inj_add.
  rewrite slice_inside by (rewrite !length_app; lia).
  rewrite skipn_app, skipn_all, Nat.sub_diag. cbn [skipn app].
  replace (length x + length y - length x)%nat with (length y) by lia.
  rewrite firstn_app, firstn_all, Nat.sub_diag. cbn. apply app_nil_r.
Qed.

Lemma last_of_nth (s : str) (k : nat) (ch : N) :
  length s = S k -> nth_error s k = Some ch -> exists s', s = s' ++ [ch].
Proof.
  intros Hl Hn. exists (firstn k s).
  rewrite <- (firstn_skipn k s) at 1. f_equal.
  apply nth_error_split in Hn. destruct Hn as (l1 & l2 & -> & Hk).
  rewrite skipn_app, skipn_all2, Hk, Nat.sub_diag by lia. cbn.
  rewrite length_app in Hl. cbn in Hl.
  destruct l2; [reflexivity | cbn in Hl; lia].
Qed.

Lemma rule_edges (clause_type : str) (r : rule) (p : Re.pattern) :
  In r (rules_of clause_type) -> Re.sre_parse (fst (fst r)) = Some p ->
  exists a p1 b p2,
    p = Re.LITERAL a :: p1 /\ p = p2 ++ [Re.LITERAL b] /\
    isspace a = false /\ isspace b = false.
Proof.
  unfold rules_of.
  destruct (dict_get patterns clause_type) as [rules|] eqn:E; [|contradiction].
  intros Hin Hp. apply dict_get_In in E.
  pose proof patterns_edges as H. rewrite forallb_forall in H.
  specialize (H _ E). cbn [snd] in H. rewrite forallb_forall in H.
  specialize (H _ Hin). rewrite Hp in H.
  destruct p as [|[a| |] p1]; try discriminate.
  destruct (rev (Re.LITERAL a :: p1)) as [|[b| |] q] eqn:Er; try discriminate.
  apply andb_prop in H. destruct H as [Ha Hb].
  exists a, p1, b, (rev q). repeat split.
  - rewrite <- (rev_involutive (Re.LITERAL a :: p1)), Er. reflexivity.
  - destruct (isspace a); [discriminate | reflexivity].
  - destruct (isspace b); [discriminate | reflexivity].
Qed.

(** X16. The context of every returned entry holds the entry's text, with
    at most 50 characters before it and at most 50 after it: stripping the
    window never cuts into the match, because every pattern of the table
    begins and ends with a literal, and a literal matches no white space.
    For the same reason the text is never empty and is itself stripped. *)
Theorem context_holds_text (text : str) (clause_types : list str) :
  exists r,
    perform_enhanced_pattern_analysis text clause_types = Return r /\
    forall c, In c (Response.detected_clauses r) ->
      Clause.text c <> [] /\
      strip (Clause.text c) = Clause.text c /\
      exists before after,
        Clause.context c = before ++ Clause.text c ++ after /\
        len before <= 50 /\ len after <= 50.
Proof.
  eexists. split; [apply analysis_eq|].
  cbn [Response.detected_clauses]. intros c Hc.
  apply in_firstn, clause_span in Hc.
  destruct Hc as (ct & r & p & m & i & n & _ & Hr & Hp & _ & -> & Hs & He & Hn & Hle & Hm).
  destruct (rule_edges ct r p Hr Hp) as (a & p1 & b & p2 & Hp1 & Hp2 & Ha & Hb).
  (* the text, cut around the match and around the window *)
  destruct (list_cut text i) as (X & Y & Htext & HX); [lia|].
  destruct (list_cut Y n) as (M & Zs & HY & HM).
  { apply (f_equal (@length N)) in Htext. rewrite length_app in Htext. lia. }
  destruct (list_cut X (i - 50)) as (T1 & A & HXc & HT1); [lia|].
  destruct (list_cut Zs (Nat.min (length text) (i + n + 50) - (i + n)))
    as (B & T2 & HZ & HB).
  { apply (f_equal (@length N)) in Htext. rewrite length_app in Htext.
    apply (f_equal (@length N)) in HY. rewrite length_app in HY. lia. }
  assert (HA : (length A <= 50)%nat).
  { apply (f_equal (@length N)) in HXc. rewrite length_app in HXc. lia. }
  assert (HBl : (length B <= 50)%nat) by lia.
  (* the first and the last character of the match *)
  assert (Hskip : skipn i text = M ++ Zs).
  { rewrite Htext, HY, skipn_app, skipn_all2, HX, Nat.sub_diag by lia.
    reflexivity. }
  rewrite Hskip in Hm.
  assert (Hfirst : exists m1 c1, M = c1 :: m1 /\ isspace c1 = false).
  { rewrite Hp1 in Hm. apply sre_match_first in Hm.
    destruct Hm as (ch & s' & Hch & Hl).
    destruct M as [|c1 m1]; [cbn in HM; lia|].
    injection Hch as -> _. exists m1, ch. split; [reflexivity|].
    apply (literal_ignore_not_space a ch Ha Hl). }
  assert (Hlast : exists m2 c2, M = m2 ++ [c2] /\ isspace c2 = false).
  { rewrite Hp2 in Hm. apply sre_match_last in Hm.
    destruct Hm as (k & ch & Hk & Hnth & Hl).
    rewrite nth_error_app1 in Hnth by lia.
    destruct (last_of_nth M k ch) as (m2 & Hm2); [lia | exact Hnth|].
    exists m2, ch. split; [exact Hm2|].
    apply (literal_ignore_not_space b ch Hb Hl). }
  destruct Hfirst as (m1 & c1 & HM1 & Hc1).
  destruct Hlast as (m2 & c2 & HM2 & Hc2).
  (* the text field and the window *)
  assert (Hgroup : Re.group text m = M).
  { unfold Re.group. rewrite Hs, He, Htext, HY.
    replace (Z.of_nat (i + n)) with (len X + len M) by (unfold len; lia).
    replace (Z.of_nat i) with (len X) by (unfold len; lia).
    apply slice_middle. }
  assert (Hwindow :
            slice text (Z.max 0 (Re.start m - 50))
                       (Z.min (len text) (Re.end_ m + 50))
            = A ++ M ++ B).
  { assert (Hlen : length text = (length T1 + (length A + (n + (length B + length T2))))%nat).
    { rewrite Htext, HY, HXc, HZ, !length_app. lia. }
    rewrite Hs, He.
    replace (Z.max 0 (Z.of_nat i - 50)) with (len T1) by (unfold len; lia).
    replace (Z.min (len text) (Z.of_nat (i + n) + 50))
      with (len T1 + len (A ++ M ++ B)).
    2:{ apply (f_equal (@length N)) in HXc. rewrite length_app in HXc.
        unfold len. rewrite !length_app. lia. }
    replace text with (T1 ++ (A ++ M ++ B) ++ T2).
    2:{ rewrite Htext, HY, HXc, HZ, <- !app_assoc. reflexivity. }
    apply slice_middle. }
  unfold clause_of. cbn [Clause.text Clause.context].
  rewrite Hgroup, Hwindow.
  split; [rewrite HM1; discriminate|].
  split.
  { pose proof (strip_around [] M [] m1 m2 c1 c2 HM1 HM2 Hc1 Hc2) as H.
    cbn in H. rewrite app_nil_r in H. exact H. }
  exists (lstrip A), (rstrip B).
  split; [apply (strip_around A M B m1 m2 c1 c2 HM1 HM2 Hc1 Hc2)|].
  pose proof (length_lstrip A). pose proof (length_rstrip B).
  unfold len. lia.
Qed.

(** ** The case of the text does not matter *)

Lemma isspace_ascii_lower (ch : N) : isspace (ascii_lower ch) = isspace ch.
Proof.
  unfold ascii_lower.
  destruct ((0x41 <=? ch) && (ch <=? 0x5A))%N eqn:E; [|reflexivity].
  apply andb_prop in E. destruct E as [E1 E2].
  apply N.leb_le in E1, E2.
  destruct (isspace (ch + 32)) eqn:S1; destruct (isspace ch) eqn:S2;
    try reflexivity;
    try (apply isspace_range in S1); try (apply isspace_range in S2); lia.
Qed.

Lemma lstrip_ascii_lower (s : str) :
  lstrip (map ascii_lower s) = map ascii_lower (lstrip s).
Proof.
  induction s as [|ch s IH]; cbn; [reflexivity|].
  rewrite isspace_ascii_lower. destruct (isspace ch); [exact IH | reflexivity].
Qed.

Lemma strip_ascii_lower (s : str) :
  strip (map ascii_lower s) = map ascii_lower (strip s).
Proof.
  unfold strip, rstrip.
  rewrite <- map_rev, lstrip_ascii_lower, <- map_rev, lstrip_ascii_lower.
  reflexivity.
Qed.

(** The matcher lowers a character and its ASCII lower case alike. *)
Lemma sre_lower_ascii_lower (ch : N) :
  Re.sre_lower_unicode (ascii_lower ch) = Re.sre_lower_unicode ch.
Proof.
  unfold ascii_lower.
  destruct ((0x41 <=? ch) && (ch <=? 0x5A))%N eqn:E; [|reflexivity].
  unfold Re.sre_lower_unicode. rewrite E.
  apply andb_prop in E. destruct E as [E1 E2].
  apply N.leb_le in E1, E2.
  destruct (N.leb_spec 0x41 (ch + 32)); destruct (N.leb_spec (ch + 32) 0x5A);
    cbn [andb]; try lia.
  destruct (N.eqb_spec (ch + 32) 0x130); [lia|].
  destruct (N.eqb_spec (ch + 32) 0x212A); [lia | reflexivity].
Qed.

Lemma same_ascii_same_lower (s1 s2 : str) :
  map ascii_lower s1 = map ascii_lower s2 ->
  map Re.sre_lower_unicode s1 = map Re.sre_lower_unicode s2.
Proof.
  intros H. apply (f_equal (map Re.sre_lower_unicode)) in H.
  rewrite !map_map in H.
  rewrite (map_ext _ Re.sre_lower_unicode sre_lower_ascii_lower s1) in H.
  rewrite (map_ext _ Re.sre_lower_unicode sre_lower_ascii_lower s2) in H.
  exact H.
Qed.

Lemma slice_map {A B} (f : A -> B) (x : list A) (i j : Z) :
  slice (map f x) i j = map f (slice x i j).
Proof.
  unfold slice, len. rewrite length_map, skipn_map, firstn_map. reflexivity.
Qed.

(** An uncased ASCII literal is matched by itself alone, so lower-casing
    the character tested makes no difference. *)
Lemma literal_ignore_lower (av ch1 ch2 : N) :
  (av < 128)%N ->
  Re.sre_lower_unicode ch1 = Re.sre_lower_unicode ch2 ->
  Re.literal_ignore av ch1 = Re.literal_ignore av ch2.
Proof.
  intros Hav H. unfold Re.literal_ignore.
  destruct (Re.iscased av) eqn:C; [rewrite H; reflexivity|].
  assert (Hplain : forall ch,
             (ch =? av)%N = (Re.sre_lower_unicode ch =? av)%N).
  { intros ch. unfold Re.iscased in C. unfold Re.sre_lower_unicode.
    apply orb_false_iff in C. destruct C as [C1 C2].
    destruct (N.leb_spec 0x41 ch); destruct (N.leb_spec ch 0x5A); cbn [andb].
    2-4: destruct (N.eqb_spec ch 0x130);
         [|destruct (N.eqb_spec ch 0x212A); [|reflexivity]].
    all: destruct (N.leb_spec 0x41 av); destruct (N.leb_spec av 0x5A);
         destruct (N.leb_spec 0x61 av); destruct (N.leb_spec av 0x7A);
         cbn in C1, C2; try discriminate;
         match goal with
         | |- (?x =? ?y)%N = (?z =? ?y)%N =>
             destruct (N.eqb_spec x y); destruct (N.eqb_spec z y);
               try reflexivity; lia
         end. }
  rewrite (Hplain ch1), (Hplain ch2), H. reflexivity.
Qed.

(** Every literal of the table is ASCII. *)
Lemma patterns_ascii :
  forallb
    (fun kv : str * list rule =>
       forallb
         (fun r : rule =>
            match Re.sre_parse (fst (fst r)) with
            | Some p =>
                forallb (fun it => match it with
                                   | Re.LITERAL av => (av <? 128)%N
                                   | _ => true
                                   end) p
            | None => false
            end)
         (snd kv))
    patterns = true.
Proof. vm_compute. reflexivity. Qed.

Lemma sre_match_lower (p : Re.pattern) :
  forallb (fun it => match it with
                     | Re.LITERAL av => (av <? 128)%N
                     | _ => true
                     end) p = true ->
  forall s1 s2,
    map Re.sre_lower_unicode s1 = map Re.sre_lower_unicode s2 ->
    Re.sre_match p s1 = Re.sre_match p s2.
Proof.
  induction p as [|[av| |] p IH]; intros Hp s1 s2 Hs; cbn [forallb] in Hp.
  - reflexivity.
  - apply andb_prop in Hp. destruct Hp as [Hav Hp]. apply N.ltb_lt in Hav.
    destruct s1 as [|c1 s1]; destruct s2 as [|c2 s2]; try discriminate;
      [reflexivity|].
    cbn in Hs. injection Hs as Hc Hs. cbn.
    rewrite (literal_ignore_lower av c1 c2 Hav Hc), (IH Hp s1 s2 Hs).
    reflexivity.
  - destruct s1 as [|c1 s1]; destruct s2 as [|c2 s2]; try discriminate;
      [reflexivity|].
    cbn in Hs. injection Hs as _ Hs. cbn. rewrite (IH Hp s1 s2 Hs).
    reflexivity.
  - rewrite !sre_match_repeat. cbn in Hp.
    revert s2 Hs. induction s1 as [|c1 s1 IHs]; intros [|c2 s2] Hs;
      try discriminate; cbn [Re.repeat_any].
    + reflexivity.
    + cbn in Hs. injection Hs as Hc Hs'. rewrite (IHs s2 Hs').
      rewrite (IH Hp (c1 :: s1) (c2 :: s2)); [reflexivity|].
      cbn. rewrite Hc, Hs'. reflexivity.
Qed.

Lemma scan_lower (p0 : Re.pattern) :
  forallb (fun it => match it with
                     | Re.LITERAL av => (av <? 128)%N
                     | _ => true
                     end) p0 = true ->
  forall s1 s2 pos skip,
    map Re.sre_lower_unicode s1 = map Re.sre_lower_unicode s2 ->
    Re.scan p0 s1 pos skip = Re.scan p0 s2 pos skip.
Proof.
  intros Hp. induction s1 as [|c1 s1 IH]; intros [|c2 s2] pos skip Hs;
    try discriminate.
  - reflexivity.
  - assert (Hs' : map Re.sre_lower_unicode s1 = map Re.sre_lower_unicode s2)
      by (cbn in Hs; congruence).
    destruct skip as [|k]; cbn [Re.scan].
    + rewrite (sre_match_lower p0 Hp (c1 :: s1) (c2 :: s2) Hs).
      destruct (Re.sre_match p0 (c2 :: s2)); rewrite (IH s2 _ _ Hs');
        reflexivity.
    + apply IH, Hs'.
Qed.
Lemma flat_map_in_ext {A B} (f g : A -> list B) (l : list A) :
  (forall x, In x l -> f x = g x) -> flat_map f l = flat_map g l.
Proof.
  induction l as [|a l IH]; cbn; intros H; [reflexivity|].
  rewrite (H a) by (left; reflexivity). f_equal. apply IH. intros x Hx.
  apply H. right. exact Hx.
Qed.

Lemma map_flat_map {A B C} (h : B -> C) (f : A -> list B) (l : list A) :
  map h (flat_map f l) = flat_map (fun x => map h (f x)) l.
Proof.
  induction l as [|a l IH]; cbn; [reflexivity|].
  rewrite map_app, IH. reflexivity.
Qed.

(** X17. Two texts that differ only in the case of ASCII letters, such as
    a text and its spelling in capitals, get the same analysis but for the
    case of the ASCII letters in the text and context fields: equal entries
    once the capitals of those two fields are lower-cased, at equal
    positions, and the same [total_found]. *)
Theorem case_of_text_ignored (text1 text2 : str) (clause_types : list str)
    (Hsame : map ascii_lower text1 = map ascii_lower text2) :
  exists r1 r2,
    perform_enhanced_pattern_analysis text1 clause_types = Return r1 /\
    perform_enhanced_pattern_analysis text2 clause_types = Return r2 /\
    Response.total_found r1 = Response.total_found r2 /\
    map ascii_folded (Response.detected_clauses r1)
    = map ascii_folded (Response.detected_clauses r2).
Proof.
  do 2 eexists. split; [apply analysis_eq|]. split; [apply analysis_eq|].
  cbn [Response.total_found Response.detected_clauses].
  assert (Hlen : len text1 = len text2).
  { unfold len. f_equal. apply (f_equal (@length N)) in Hsame.
    rewrite !length_map in Hsame. exact Hsame. }
  assert (Hall : map ascii_folded (all_clauses text1 clause_types)
                 = map ascii_folded (all_clauses text2 clause_types)).
  { unfold all_clauses. rewrite !map_flat_map.
    apply flat_map_in_ext. intros ct _.
    unfold category_clauses. rewrite !map_flat_map.
    apply flat_map_in_ext. intros r Hr.
    unfold rule_clauses. rewrite !map_map.
    assert (Hm : rule_matches text1 r = rule_matches text2 r).
    { unfold rule_matches.
      destruct (Re.sre_parse (fst (fst r))) as [p|] eqn:Hp; [|reflexivity].
      apply scan_lower; [|apply same_ascii_same_lower, Hsame].
      unfold rules_of in Hr.
      destruct (dict_get patterns ct) as [rules|] eqn:E; [|contradiction].
      apply dict_get_In in E.
      pose proof patterns_ascii as H. rewrite forallb_forall in H.
      specialize (H _ E). cbn [snd] in H. rewrite forallb_forall in H.
      specialize (H _ Hr). rewrite Hp in H. exact H. }
    rewrite Hm. apply map_ext. intros m.
    unfold ascii_folded, clause_of, Re.group.
    cbn [Clause.text Clause.context Clause.type Clause.confidence
         Clause.risk_level Clause.position].
    rewrite <- !strip_ascii_lower, <- !slice_map, Hsame, Hlen. reflexivity. }
  split.
  - unfold len. f_equal. apply (f_equal (@length Clause.t)) in Hall.
    rewrite !length_map in Hall. exact Hall.
  - rewrite <- !firstn_map, Hall. reflexivity.
Qed.

Lemma case_of_text_ignored_witness :
  exists r1 r2,
    perform_enhanced_pattern_analysis
      (lit "DRAG-ALONG RIGHT: NINETY-FIVE PER CENT") [lit "drag_along"]
    = Return r1 /\
    perform_enhanced_pattern_analysis
      (lit "drag-along right: ninety-five per cent") [lit "drag_along"]
    = Return r2 /\
    Response.total_found r1 = Response.total_found r2 /\
    map ascii_folded (Response.detected_clauses r1)
    = map ascii_folded (Response.detected_clauses r2).
Proof.
  exact (case_of_text_ignored
           (lit "DRAG-ALONG RIGHT: NINETY-FIVE PER CENT")
           (lit "drag-along right: ninety-five per cent")
           [lit "drag_along"] eq_refl).
Defined.
